(** * Ironic driver layer: a shallow embedding and its properties

    The development follows the Python sources of the driver layer:
    - [ironic/drivers/base.py]: [BaseDriver], [BaseInterface.__new__],
      [get_clean_steps], [clean_step], [_passthru], [driver_periodic_task];
    - [ironic/drivers/modules/ilo/common.py]: [parse_driver_info];
    - [ironic/drivers/modules/drac/power.py]: [DracPower];
    - [ironic/objects/fields.py]: [FlexibleDict], [FlexibleDictField].

    Python dictionaries with string keys are [gmap string _]; Python
    exceptions are the left summand of a sum type; code that talks to a BMC
    threads an explicit world through a small state-and-error monad. *)

From stdpp Require Import functions gmap strings list sorting.
From Stdlib Require Import ZArith Ascii.

Open Scope Z_scope.

(** ** Clean step discovery ([ironic/drivers/base.py]) *)

Module CleanSteps.

(** A Python function object, reduced to the attributes the driver layer
    reads.  [_clean_step_priority] is [Some p] exactly when the function went
    through [clean_step p]: the decorator is the only writer of
    [_is_clean_step] and [_clean_step_priority] and it sets both at once, so
    [getattr(method, '_is_clean_step', False)] is [is_Some] of this field. *)
Record function := Function {
  __name__ : string;
  _clean_step_priority : option Z;
}.

Global Instance function_eq_dec : EqDecision function.
Proof. solve_decision. Defined.

(** [def name(self, task): ...] *)
Definition def (name : string) : function :=
  {| __name__ := name; _clean_step_priority := None |}.

(** [clean_step(priority)(func)]: tags [func] and returns it. *)
Definition clean_step (priority : Z) (func : function) : function :=
  {| __name__ := __name__ func; _clean_step_priority := Some priority |}.

Definition _is_clean_step (func : function) : bool :=
  bool_decide (is_Some (_clean_step_priority func)).

(** What an attribute name of an instance is bound to: a bound method or
    anything else (a string such as [interface_type], a list, ...). *)
Inductive member :=
  | Method (f : function)
  | Attribute.

Global Instance member_eq_dec : EqDecision member.
Proof. solve_decision. Defined.

Definition ismethod (m : member) : bool :=
  match m with Method _ => true | Attribute => false end.

(** The entry [{'step': ..., 'priority': ..., 'interface': ...}]. *)
Record step_dict := StepDict {
  step : string;
  priority : Z;
  interface : string;
}.

Global Instance step_dict_eq_dec : EqDecision step_dict.
Proof. solve_decision. Defined.

(** A class body, in declaration order: the statements [name = value] and
    [def name ...] of the class and of its bases, bases first. *)
Record class := Class {
  interface_type : string;
  declarations : list (string * member);
}.

(** The attribute dictionary that results from executing the declarations in
    order: a later binding of a name replaces an earlier one. *)
Definition bind (ns : gmap string member) (d : string * member)
  : gmap string member := <[d.1 := d.2]> ns.

Definition attributes (cls : class) : gmap string member :=
  foldl bind ∅ (declarations cls).

(** Pairs are ordered by attribute name: [results.sort()] on
    [(key, value)] pairs whose keys are distinct. *)
Definition key_le (a b : string * member) : Prop := String.le a.1 b.1.

Global Instance key_le_dec : RelDecision key_le.
Proof. intros a b. unfold key_le. apply _. Defined.

(** [inspect.getmembers(object, predicate)]: every attribute whose value
    satisfies the predicate, as [(name, value)] pairs sorted by name. *)
Definition getmembers (ns : gmap string member) (predicate : member → bool)
  : list (string * member) :=
  merge_sort key_le (filter (λ kv, predicate kv.2 = true) (map_to_list ns)).

(** The body of the [for n, method in ...] loop of [BaseInterface.__new__]. *)
Definition record_step (itype : string) (steps : list step_dict)
    (nm : string * member) : list step_dict :=
  match nm.2 with
  | Method method =>
      match _clean_step_priority method with
      | Some p =>
          steps ++ [ {| step := __name__ method;
                        priority := p;
                        interface := itype |} ]
      | None => steps
      end
  | Attribute => steps
  end.

(** An interface instance after [__new__]. *)
Record instance := Instance {
  inst_interface_type : string;
  inst_attributes : gmap string member;
  clean_steps : list step_dict;
}.

(** [BaseInterface.__new__(cls)] *)
Definition new (cls : class) : instance :=
  let ns := attributes cls in
  {| inst_interface_type := interface_type cls;
     inst_attributes := ns;
     clean_steps :=
       foldl (record_step (interface_type cls)) [] (getmembers ns ismethod) |}.

(** [BaseInterface.get_clean_steps(self, task)]; the task is not used. *)
Definition get_clean_steps {T} (self : instance) (task : T) : list step_dict :=
  clean_steps self.

(** The tagged methods of an attribute dictionary. *)
Definition tagged (m : member) : Prop :=
  match m with
  | Method f => is_Some (_clean_step_priority f)
  | Attribute => False
  end.

Global Instance tagged_dec m : Decision (tagged m).
Proof. destruct m; simpl; apply _. Defined.

(** The steps in the order in which the class body declares them, for
    comparison with the order of discovery. *)
Definition declared_steps (cls : class) : list step_dict :=
  foldl (record_step (interface_type cls)) [] (declarations cls).

(** Modelled from the spec: the execution-time ordering of the discovered
    steps lives in the conductor ([ironic/conductor/manager.py]), which is not
    part of the sources at hand.  The spec orders the step queue by descending
    priority with a stable tie-break; the definition is the stable insertion
    sort for that order: [x] is placed in front of the first element whose
    priority does not exceed its own. *)
Fixpoint insert_step (x : step_dict) (l : list step_dict) : list step_dict :=
  match l with
  | [] => [x]
  | y :: l' =>
      if bool_decide (priority x < priority y)
      then y :: insert_step x l'
      else x :: y :: l'
  end.

Definition execution_order (steps : list step_dict) : list step_dict :=
  foldr insert_step [] steps.

Definition prio_ge (a b : step_dict) : Prop := priority b ≤ priority a.

(** The steps of one priority, in the order of the list. *)
Definition with_priority (p : Z) (steps : list step_dict) : list step_dict :=
  filter (λ e, priority e = p) steps.

(** Strictly ascending step names. *)
Definition name_lt (a b : step_dict) : Prop :=
  String.le (step a) (step b) ∧ step a ≠ step b.

(** A class whose two steps of equal priority are declared in the order
    [erase_b], [erase_a]. *)
Definition two_erasers : class :=
  {| interface_type := "deploy";
     declarations :=
       [ ("interface_type", Attribute);
         ("erase_b", Method (clean_step 10 (def "erase_b")));
         ("erase_a", Method (clean_step 10 (def "erase_a"))) ] |}.

(** A class with a disabled step (priority 0), a negative priority and an
    untagged method. *)
Definition mixed_priorities : class :=
  {| interface_type := "management";
     declarations :=
       [ ("interface_type", Attribute);
         ("reset_ilo", Method (clean_step 0 (def "reset_ilo")));
         ("validate", Method (def "validate"));
         ("clear_keys", Method (clean_step (-5) (def "clear_keys")));
         ("reset_bios", Method (clean_step 30 (def "reset_bios"))) ] |}.

(** The entry a member gives rise to, if any. *)
Definition step_of (itype : string) (nm : string * member) : option step_dict :=
  match nm.2 with
  | Method f =>
      p ← _clean_step_priority f;
      Some {| step := __name__ f; priority := p; interface := itype |}
  | Attribute => None
  end.

(** Strictly ascending attribute names. *)
Definition key_lt (a b : string * member) : Prop :=
  String.le a.1 b.1 ∧ a.1 ≠ b.1.

(** Methods created by [def] carry the name they are bound to. *)
Definition def_names (cls : class) : Prop :=
  ∀ n f, attributes cls !! n = Some (Method f) → __name__ f = n.

End CleanSteps.

(** ** Python values

    The values a JSON-backed dictionary such as [driver_info] can hold, and
    the literals [ast.literal_eval] can produce.  Floating point numbers are
    left out. *)

Module Py.

#[warnings="-register-all"]
Inductive value :=
  | PyNone
  | PyBool (b : bool)
  | PyInt (z : Z)
  | PyStr (s : string)
  | PyList (l : list value)
  | PyTuple (l : list value)
  | PyDict (d : list (value * value)).

(** Built-in exceptions the modelled code can meet. *)
Inductive builtin_error := KeyError | ValueError | TypeError | SyntaxError.

(** [bool(value)]: the test of [if value:]. *)
Definition truthy (v : value) : bool :=
  match v with
  | PyNone => false
  | PyBool b => b
  | PyInt z => negb (z =? 0)
  | PyStr s => negb (String.eqb s "")
  | PyList l | PyTuple l => negb (bool_decide (l = []))
  | PyDict d => negb (bool_decide (d = []))
  end.

Definition is_space (c : Ascii.ascii) : bool :=
  let n := Ascii.N_of_ascii c in
  ((n =? 32) || ((9 <=? n) && (n <=? 13)))%N.

Fixpoint lstrip (s : string) : string :=
  match s with
  | String c s' => if is_space c then lstrip s' else s
  | EmptyString => EmptyString
  end.

Definition strip (s : string) : string :=
  String.rev (lstrip (String.rev (lstrip s))).

Definition digit (c : Ascii.ascii) : option Z :=
  let n := Z.of_N (Ascii.N_of_ascii c) in
  if (48 <=? n) && (n <=? 57) then Some (n - 48) else None.

Fixpoint digits (acc : Z) (s : string) : option Z :=
  match s with
  | EmptyString => Some acc
  | String c s' => d ← digit c; digits (10 * acc + d) s'
  end.

Definition unsigned (s : string) : option Z :=
  match s with
  | EmptyString => None
  | _ => digits 0 s
  end.

(** [int(s)] for a string in base 10: surrounding white space is dropped,
    one sign is allowed, and at least one decimal digit must follow. *)
Definition int_of_str (s : string) : option Z :=
  match strip s with
  | String "-"%char r => Z.opp <$> unsigned r
  | String "+"%char r => unsigned r
  | r => unsigned r
  end.

(** [int(value)]: numbers convert, strings are parsed ([ValueError] when
    they do not denote an integer), and everything else, [None] included, is
    a [TypeError]. *)
Definition int (v : value) : builtin_error + Z :=
  match v with
  | PyInt z => inr z
  | PyBool b => inr (if b then 1 else 0)
  | PyStr s =>
      match int_of_str s with
      | Some z => inr z
      | None => inl ValueError
      end
  | PyNone | PyList _ | PyTuple _ | PyDict _ => inl TypeError
  end.

End Py.

(** ** iLO driver information ([ironic/drivers/modules/ilo/common.py]) *)

Module IloCommon.
Import Py.

Inductive exn :=
  | MissingParameterValue (params : list string)
  | InvalidParameterValue (params : list string)
  | Builtin (e : builtin_error).

(** The [[ilo]] group of the configuration: two [IntOpt]s. *)
Record ilo_opts := IloOpts {
  client_timeout : Z;
  client_port : Z;
}.

(** The defaults of [opts]. *)
Definition default_opts : ilo_opts :=
  {| client_timeout := 60; client_port := 443 |}.

(** [CONF.ilo.get(param)] *)
Definition conf_get (conf : ilo_opts) (param : string) : value :=
  if bool_decide (param = "client_timeout") then PyInt (client_timeout conf)
  else if bool_decide (param = "client_port") then PyInt (client_port conf)
  else PyNone.

(** The keys of the property tables.  Python enumerates the keys of a
    dictionary in an order of its own; the lists follow the source, and the
    order shows only in the order of the names an exception reports. *)
Definition REQUIRED_PROPERTIES : list string :=
  ["ilo_address"; "ilo_username"; "ilo_password"].
Definition OPTIONAL_PROPERTIES : list string :=
  ["client_port"; "client_timeout"].
Definition CONSOLE_PROPERTIES : list string := ["console_port"].

(** The state of the function's loops: [d_info] and the list of offending
    parameters ([missing_info], then [not_integers]). *)
Definition acc : Type := gmap string value * list string.

(** [try: d_info[param] = info[param] except KeyError: missing_info.append] *)
Definition copy_required (info : gmap string value) (a : acc) (param : string)
  : acc :=
  match info !! param with
  | Some v => (<[param := v]> a.1, a.2)
  | None => (a.1, a.2 ++ [param])
  end.

(** [try: d_info[param] = int(value) except ValueError: not_integers.append];
    any other exception of [int] leaves the function. *)
Definition store_int (a : acc) (param : string) (v : value) : exn + acc :=
  match int v with
  | inr z => inr (<[param := PyInt z]> a.1, a.2)
  | inl ValueError => inr (a.1, a.2 ++ [param])
  | inl e => inl (Builtin e)
  end.

Definition optional_step (conf : ilo_opts) (info : gmap string value)
    (r : exn + acc) (param : string) : exn + acc :=
  match r with
  | inl e => inl e
  | inr a => store_int a param (default (conf_get conf param) (info !! param))
  end.

Definition console_step (info : gmap string value)
    (r : exn + acc) (param : string) : exn + acc :=
  match r with
  | inl e => inl e
  | inr a =>
      let v := default PyNone (info !! param) in
      if truthy v then store_int a param v else inr a
  end.

(** [parse_driver_info(node)], on [node.driver_info]. *)
Definition parse_driver_info (conf : ilo_opts) (info : gmap string value)
  : exn + gmap string value :=
  let '(d_info, missing_info) :=
    foldl (copy_required info) (∅, []) REQUIRED_PROPERTIES in
  if bool_decide (missing_info ≠ []) then
    inl (MissingParameterValue missing_info)
  else
    let r := foldl (optional_step conf info) (inr (d_info, []))
                   OPTIONAL_PROPERTIES in
    let r := foldl (console_step info) r CONSOLE_PROPERTIES in
    match r with
    | inl e => inl e
    | inr (d_info, not_integers) =>
        if bool_decide (not_integers ≠ []) then
          inl (InvalidParameterValue not_integers)
        else inr d_info
    end.

(** A complete [driver_info] whose [client_port] is JSON [null]. *)
Definition null_port_info : gmap string value :=
  <["ilo_address" := PyStr "10.0.0.5"]>
  (<["ilo_username" := PyStr "admin"]>
  (<["ilo_password" := PyStr "secret"]>
  (<["client_port" := PyNone]> ∅))).

(** A complete [driver_info] with textual port numbers. *)
Definition good_info : gmap string value :=
  <["ilo_address" := PyStr "10.0.0.5"]>
  (<["ilo_username" := PyStr "admin"]>
  (<["ilo_password" := PyStr "secret"]>
  (<["client_port" := PyStr " 8443"]>
  (<["console_port" := PyInt 9000]> ∅)))).

(** [int] succeeds on the value. *)
Definition convertible (v : value) : Prop := ∃ z, int v = inr z.

(** The value is a number or a string: [int] does not raise [TypeError]. *)
Definition scalar (v : value) : Prop :=
  match v with
  | PyInt _ | PyBool _ | PyStr _ => True
  | _ => False
  end.

(** Every required parameter is present. *)
Definition all_required (info : gmap string value) : Prop :=
  ∀ p, p ∈ REQUIRED_PROPERTIES → is_Some (info !! p).

(** What the integer loops look at. *)
Definition optional_value (conf : ilo_opts) (info : gmap string value)
    (param : string) : value :=
  default (conf_get conf param) (info !! param).

(** Some value the parser converts is not an integer. *)
Definition offending (conf : ilo_opts) (info : gmap string value) : Prop :=
  (∃ p, p ∈ OPTIONAL_PROPERTIES ∧ ¬ convertible (optional_value conf info p))
  ∨ (∃ v, info !! "console_port" = Some v ∧ truthy v = true
          ∧ ¬ convertible v).

End IloCommon.

(** ** DRAC power interface ([ironic/drivers/modules/drac/power.py]) *)

Module DracPower.

(** The power states of [ironic.common.states] the driver layer passes
    around. *)
Inductive power_state := POWER_ON | POWER_OFF | REBOOT | ERROR | NOSTATE.

Global Instance power_state_eq_dec : EqDecision power_state.
Proof. solve_decision. Defined.

Inductive exn :=
  | ExclusiveLockRequired
  | InvalidParameterValue
  | DracClientError
  | DracOperationFailed
  | DracUnexpectedReturnValue
  | KeyError.

(** [POWER_STATES] and its inverse [REVERSE_POWER_STATES]. *)
Definition POWER_STATES : gmap string power_state :=
  <["2" := POWER_ON]> (<["3" := POWER_OFF]> (<["11" := REBOOT]> ∅)).

Definition REVERSE_POWER_STATES (s : power_state) : option string :=
  match s with
  | POWER_ON => Some "2"
  | POWER_OFF => Some "3"
  | REBOOT => Some "11"
  | ERROR | NOSTATE => None
  end.

(** The calls the WS-Man client sends to the controller. *)
Inductive wsman_call :=
  | Enumerate
  | RequestStateChange (requested_state : string).

(** The controller of a node as the driver sees it: whether a client can be
    built from the node's credentials, what the enumeration of
    [DCIM_ComputerSystem] answers (the text of [EnabledState], or a client
    error), what a state change request answers, and the calls received so
    far, oldest first. *)
Record bmc := Bmc {
  credentials_ok : bool;
  enumerate_reply : exn + string;
  invoke_reply : string → option exn;
  calls : list wsman_call;
}.

Definition sent (c : wsman_call) (w : bmc) : bmc :=
  {| credentials_ok := credentials_ok w;
     enumerate_reply := enumerate_reply w;
     invoke_reply := invoke_reply w;
     calls := calls w ++ [c] |}.

(** Computations that may raise and that talk to the controller. *)
Definition M (A : Type) : Type := bmc → (exn + A) * bmc.

Definition ret {A} (a : A) : M A := λ w, (inr a, w).
Definition raise {A} (e : exn) : M A := λ w, (inl e, w).
Definition bind {A B} (m : M A) (k : A → M B) : M B :=
  λ w, match m w with
       | (inr a, w') => k a w'
       | (inl e, w') => (inl e, w')
       end.

Global Instance M_ret : MRet M := @ret.
Global Instance M_bind : MBind M := λ A B k m, bind m k.

(** [drac_client.get_wsman_client(node)] *)
Definition get_wsman_client : M unit :=
  λ w, if credentials_ok w then (inr (), w) else (inl InvalidParameterValue, w).

(** [client.wsman_enumerate(...)] followed by [find_xml(...).text] *)
Definition wsman_enumerate : M string :=
  λ w, match enumerate_reply w with
       | inr text => (inr text, sent Enumerate w)
       | inl e => (inl e, sent Enumerate w)
       end.

(** [client.wsman_invoke(..., 'RequestStateChange', selectors, properties)] *)
Definition wsman_invoke (requested_state : string) : M unit :=
  λ w, match invoke_reply w requested_state with
       | None => (inr (), sent (RequestStateChange requested_state) w)
       | Some e => (inl e, sent (RequestStateChange requested_state) w)
       end.

(** A dictionary subscript: [KeyError] on a missing key. *)
Definition subscript {A} (o : option A) : M A :=
  match o with Some a => ret a | None => raise KeyError end.

(** [_get_power_state(node)] *)
Definition _get_power_state : M power_state :=
  get_wsman_client ;;
  text ← wsman_enumerate;
  subscript (POWER_STATES !! text).

(** [_set_power_state(node, target_state)] *)
Definition _set_power_state (target_state : power_state) : M unit :=
  get_wsman_client ;;
  requested ← subscript (REVERSE_POWER_STATES target_state);
  wsman_invoke requested.

(** The task object handed to the interface: [task.shared] tells whether
    the lease on [task.node] is shared or exclusive. *)
Record task := Task {
  node_uuid : string;
  shared : bool;
}.

(** Modelled from the spec: [task_manager.require_exclusive_lock] belongs to
    [ironic/conductor/task_manager.py], which is not part of the sources at
    hand.  The spec has mutating operations require the exclusive lease: the
    wrapped function runs when the task holds it and the call is refused
    otherwise, before the wrapped function does anything. *)
Definition require_exclusive_lock {A} (f : task → M A) (t : task) : M A :=
  if shared t then raise ExclusiveLockRequired else f t.

(** [DracPower.get_power_state(self, task)] *)
Definition get_power_state (t : task) : M power_state :=
  _get_power_state.

(** [DracPower.set_power_state(self, task, power_state)] *)
Definition set_power_state (t : task) (state : power_state) : M unit :=
  require_exclusive_lock (λ _, _set_power_state state) t.

(** [DracPower.reboot(self, task)] *)
Definition reboot (t : task) : M unit :=
  require_exclusive_lock
    (λ _,
       current_power_state ← _get_power_state;
       let target_power_state :=
         if bool_decide (current_power_state = POWER_ON)
         then REBOOT else POWER_ON in
       _set_power_state target_power_state) t.

(** A controller that answers every request, reporting [state_text]. *)
Definition healthy (state_text : string) : bmc :=
  {| credentials_ok := true;
     enumerate_reply := inr state_text;
     invoke_reply := λ _, None;
     calls := [] |}.

(** The body of [reboot] without its decorator. *)
Definition reboot_body : M unit :=
  current_power_state ← _get_power_state;
  _set_power_state
    (if bool_decide (current_power_state = POWER_ON) then REBOOT else POWER_ON).

End DracPower.

(** ** Vendor passthru wrapper ([_passthru] in [ironic/drivers/base.py]) *)

Module Passthru.

(** Python exception classes, each with its chain of bases up to
    [BaseException]. *)
Inductive pyclass :=
  | BaseException
  | Subclass (name : string) (base : pyclass).

Global Instance pyclass_eq_dec : EqDecision pyclass.
Proof. solve_decision. Defined.

Definition Exception : pyclass := Subclass "Exception" BaseException.
Definition KeyboardInterrupt : pyclass :=
  Subclass "KeyboardInterrupt" BaseException.
Definition SystemExit : pyclass := Subclass "SystemExit" BaseException.
Definition ValueError : pyclass :=
  Subclass "ValueError" (Subclass "StandardError" Exception).
Definition IronicException : pyclass := Subclass "IronicException" Exception.
Definition VendorPassthruException : pyclass :=
  Subclass "VendorPassthruException" IronicException.
Definition InvalidParameterValue : pyclass :=
  Subclass "InvalidParameterValue" (Subclass "Invalid" IronicException).

(** [issubclass(c, d)] *)
Fixpoint issubclass (c d : pyclass) : bool :=
  bool_decide (c = d)
  || match c with
     | BaseException => false
     | Subclass _ base => issubclass base d
     end.

(** What an exception was built from: a text, or another exception as in
    [VendorPassthruException(message=e)]. *)
Inductive message :=
  | Text (s : string)
  | OfException (cls : pyclass) (m : message).

Record exc := Exc {
  exc_class : pyclass;
  exc_message : message;
}.

Global Instance message_eq_dec : EqDecision message.
Proof. solve_decision. Defined.
Global Instance exc_eq_dec : EqDecision exc.
Proof. solve_decision. Defined.

Definition isinstance (e : exc) (c : pyclass) : bool :=
  issubclass (exc_class e) c.

(** How a call ends. *)
Inductive outcome (V : Type) :=
  | Returns (v : V)
  | Raises (e : exc).
Arguments Returns {V} v.
Arguments Raises {V} e.

(** A Python callable acting on a state [S]; [name] is its [__name__]. *)
Record callable (A S V : Type) := Callable {
  name : string;
  call : A → S → outcome V * S;
}.
Arguments name {A S V} c.
Arguments call {A S V} c.

(** A record written by [LOG.exception(passthru_logmessage, api_method)]. *)
Definition passthru_logmessage (api_method : string) : string :=
  "vendor_passthru failed with method " +:+ api_method.

(** [api_method = method; if api_method is None: api_method = func.__name__] *)
Definition api_method_of {A S V} (method : option string)
    (func : callable A S V) : string :=
  default (name func) method.

(** The closure [passthru_handler] as built by
    [_passthru(http_methods, method, ...)(func)]: the outcome, the state the
    call leaves, and the records logged.  The metadata the decorator
    attaches to [func] plays no part in the call. *)
Definition passthru_handler {A S V} (method : option string)
    (func : callable A S V) (args : A) (s : S)
  : outcome V * S * list string :=
  let api_method := api_method_of method func in
  match call func args s with
  | (Returns v, s') => (Returns v, s', [])
  | (Raises e, s') =>
      if isinstance e IronicException then
        (Raises e, s', [passthru_logmessage api_method])
      else if isinstance e Exception then
        (Raises {| exc_class := VendorPassthruException;
                   exc_message := OfException (exc_class e) (exc_message e) |},
         s', [passthru_logmessage api_method])
      else (Raises e, s', [])
  end.

(** A passthru method interrupted from outside. *)
Definition interrupted : callable unit unit unit :=
  {| name := "heartbeat";
     call := λ _ s, (Raises (Exc KeyboardInterrupt (Text "")), s) |}.

(** A passthru method failing on bad input of its own. *)
Definition failing : callable unit unit unit :=
  {| name := "heartbeat";
     call := λ _ s, (Raises (Exc ValueError (Text "bad address")), s) |}.

End Passthru.

(** ** Driver base class ([BaseDriver] in [ironic/drivers/base.py]) *)

Module BaseDriver.

(** The statements of the class body that matter: [name = None] and the
    appends to the two interface lists. *)
Inductive statement :=
  | AssignNone (attr : string)
  | AppendCore (attr : string)
  | AppendStandard (attr : string).

Definition class_body : list statement :=
  [ AssignNone "power"; AppendCore "power";
    AssignNone "deploy"; AppendCore "deploy";
    AssignNone "console"; AppendStandard "console";
    AssignNone "rescue";
    AssignNone "management"; AppendStandard "management";
    AssignNone "vendor";
    AssignNone "inspect"; AppendStandard "inspect" ].

(** A capability object, reduced to what [get_properties] returns. *)
Record iface := Iface {
  iface_properties : gmap string string;
}.

(** The class namespace while the body executes: the class attributes (all
    bound to [None], hence [option iface]) and the two lists. *)
Record namespace := Namespace {
  class_attrs : gmap string (option iface);
  core : list string;
  standard : list string;
}.

Definition exec (ns : namespace) (st : statement) : namespace :=
  match st with
  | AssignNone a =>
      {| class_attrs := <[a := None]> (class_attrs ns);
         core := core ns; standard := standard ns |}
  | AppendCore a =>
      {| class_attrs := class_attrs ns;
         core := core ns ++ [a]; standard := standard ns |}
  | AppendStandard a =>
      {| class_attrs := class_attrs ns;
         core := core ns; standard := standard ns ++ [a] |}
  end.

Definition base_driver : namespace :=
  foldl exec {| class_attrs := ∅; core := []; standard := [] |} class_body.

Definition core_interfaces : list string := core base_driver.
Definition standard_interfaces : list string := standard base_driver.

(** A driver instance: the attributes its [__init__] assigned. *)
Abbreviation driver := (gmap string iface).

(** [getattr(self, iface_name, None)]: the instance attribute, else the
    class attribute, else [None]. *)
Definition getattr (self : driver) (iface_name : string) : option iface :=
  match self !! iface_name with
  | Some i => Some i
  | None => default None (class_attrs base_driver !! iface_name)
  end.

(** [BaseDriver.get_properties(self)] *)
Definition get_properties (self : driver) : gmap string string :=
  foldl (λ properties iface_name,
           match getattr self iface_name with
           | Some iface => iface_properties iface ∪ properties
           | None => properties
           end)
        ∅ (core_interfaces ++ standard_interfaces ++ ["vendor"]).

Inductive exn := DriverLoadError (missing : list string).

(** Modelled from the spec: loading a driver into the registry is done by
    [ironic/common/driver_factory.py], which is not part of the sources at
    hand.  The spec has loading fail with [DriverLoadError] when a mandatory
    capability is missing; the mandatory ones are those [BaseDriver] lists
    in [core_interfaces]. *)
Definition load_driver (self : driver) : exn + driver :=
  let missing :=
    filter (λ iface_name, getattr self iface_name = None) core_interfaces in
  if bool_decide (missing = []) then inr self else inl (DriverLoadError missing).

Definition some_iface : iface := {| iface_properties := ∅ |}.

(** A driver with the two core capabilities and nothing else. *)
Definition minimal_driver : driver :=
  <["power" := some_iface]> (<["deploy" := some_iface]> ∅).

(** The capability attributes of [BaseDriver] outside [core_interfaces]. *)
Definition optional_interfaces : list string :=
  ["console"; "rescue"; "management"; "inspect"; "vendor"].

End BaseDriver.

(** ** Object fields ([ironic/objects/fields.py]) *)

Module Fields.
Import Py.

(** Values that can be dictionary keys: lists and dictionaries cannot. *)
Fixpoint hashable (v : value) : bool :=
  match v with
  | PyNone | PyBool _ | PyInt _ | PyStr _ => true
  | PyTuple l => forallb hashable l
  | PyList _ | PyDict _ => false
  end.

(** Equality of keys: structural, with [True == 1] and [False == 0]. *)
Fixpoint key_eqb (a b : value) {struct a} : bool :=
  match a, b with
  | PyNone, PyNone => true
  | PyBool x, PyBool y => Bool.eqb x y
  | PyInt x, PyInt y => x =? y
  | PyBool x, PyInt y | PyInt y, PyBool x => (if x then 1 else 0) =? y
  | PyStr x, PyStr y => String.eqb x y
  | PyTuple x, PyTuple y =>
      (fix go (x y : list value) : bool :=
         match x, y with
         | [], [] => true
         | a' :: x', b' :: y' => key_eqb a' b' && go x' y'
         | _, _ => false
         end) x y
  | _, _ => false
  end.

(** [d[k] = v] on a dictionary kept as its bindings in insertion order. *)
Fixpoint setitem (d : list (value * value)) (k v : value)
  : list (value * value) :=
  match d with
  | [] => [(k, v)]
  | (k', v') :: d' =>
      if key_eqb k' k then (k', v) :: d' else (k', v') :: setitem d' k v
  end.

(** An element of the sequence given to [dict]: it must itself be a
    sequence of length two. *)
Definition pair_of (item : value) : builtin_error + (value * value) :=
  match item with
  | PyList [k; v] | PyTuple [k; v] => inr (k, v)
  | PyStr (String a (String b EmptyString)) =>
      inr (PyStr (String a EmptyString), PyStr (String b EmptyString))
  | PyDict [(k1, _); (k2, _)] => inr (k1, k2)
  | PyList _ | PyTuple _ | PyStr _ | PyDict _ => inl ValueError
  | PyNone | PyBool _ | PyInt _ => inl TypeError
  end.

Definition update (r : builtin_error + list (value * value)) (item : value)
  : builtin_error + list (value * value) :=
  match r with
  | inl e => inl e
  | inr d =>
      match pair_of item with
      | inl e => inl e
      | inr (k, v) => if hashable k then inr (setitem d k v) else inl TypeError
      end
  end.

Definition chars (s : string) : list value :=
  (λ c, PyStr (String c EmptyString)) <$> String.list_ascii_of_string s.

(** [dict(value)]: a copy of a dictionary, or the dictionary built from a
    sequence of pairs; anything that is not iterable is a [TypeError]. *)
Definition dict (v : value) : builtin_error + list (value * value) :=
  match v with
  | PyDict d => inr d
  | PyList l | PyTuple l => foldl update (inr []) l
  | PyStr s => foldl update (inr []) (chars s)
  | PyNone | PyBool _ | PyInt _ => inl TypeError
  end.

(** The part of an [oslo_versionedobjects] field the code relies on. *)
Record field := Field {
  nullable : bool;
  default_value : option value;
}.

Section coerce.

(** [ast.literal_eval], the parser of Python literals. *)
Variable literal_eval : string → builtin_error + value.

(** [FlexibleDict.coerce(obj, attr, value)] *)
Definition FlexibleDict_coerce (v : value) : builtin_error + value :=
  let parsed :=
    match v with
    | PyStr s => literal_eval s
    | _ => inr v
    end in
  match parsed with
  | inl e => inl e
  | inr v' =>
      match dict v' with
      | inl e => inl e
      | inr d => inr (PyDict d)
      end
  end.

(** [Field._null] of the library: [None] for a nullable field, else the
    coerced default, else [ValueError]. *)
Definition Field_null (self : field) : builtin_error + value :=
  if nullable self then inr PyNone
  else match default_value self with
       | Some d => FlexibleDict_coerce d
       | None => inl ValueError
       end.

(** [FlexibleDictField._null(self, obj, attr)]; in the second branch the
    result of the call to [super] is not returned. *)
Definition _null (self : field) : builtin_error + value :=
  if nullable self then inr (PyDict [])
  else match Field_null self with
       | inl e => inl e
       | inr _ => inr PyNone
       end.

(** [Field.coerce] of the library, with [_null] overridden. *)
Definition coerce (self : field) (v : value) : builtin_error + value :=
  match v with
  | PyNone => _null self
  | _ => FlexibleDict_coerce v
  end.

(** [_Callable.__call__(self, value)] *)
Definition call (self : field) (v : value) : builtin_error + value :=
  coerce self v.

End coerce.

(** A stand-in for the parser that knows the literal of the empty
    dictionary only, enough to run the examples. *)
Definition literal_eval_braces (s : string) : builtin_error + value :=
  if bool_decide (s = "{}") then inr (PyDict []) else inl SyntaxError.

End Fields.

(** ** Periodic driver tasks ([driver_periodic_task] in
       [ironic/drivers/base.py]) *)

Module PeriodicTask.
Local Open Scope nat_scope.

(** A function decorated by [driver_periodic_task(parallel, name=...)]. *)
Record decorated := Decorated {
  task_name : string;
  parallel : bool;
}.

(** What happens, in order.  [Called] and [Returned] bracket a call of the
    wrapper by the periodic loop; [Started] and [Ended] bracket a run of the
    decorated function; [Blocked] is a worker greenthread finding the
    semaphore taken. *)
Inductive action :=
  | Called (name : string) (tick : nat)
  | Spawned (name : string) (tick : nat)
  | Returned (name : string) (tick : nat)
  | Blocked (name : string) (tick : nat)
  | Started (name : string) (tick : nat)
  | Ended (name : string) (tick : nat).

Global Instance action_eq_dec : EqDecision action.
Proof. solve_decision. Defined.

(** The [BoundedSemaphore()] of one decorated function: its counter, the
    greenthreads waiting in [with semaphore] (first come first), and the
    runs of the function in progress under it.  Greenthreads are named by
    the tick that spawned them. *)
Record sem := Sem {
  counter : nat;
  waiters : list nat;
  running : list nat;
}.

Record sched := Sched {
  sems : string → sem;
  trace : list action;
}.

Definition initial : sched :=
  {| sems := λ _, {| counter := 1; waiters := []; running := [] |};
     trace := [] |}.

Definition log (a : action) (st : sched) : sched :=
  {| sems := sems st; trace := trace st ++ [a] |}.

(** The greenthread [_internal] once scheduled: it enters [with semaphore]
    and starts the function, or waits for the semaphore. *)
Definition _internal (name : string) (tick : nat) (st : sched) : sched :=
  let s := sems st name in
  match counter s with
  | O =>
      {| sems := <[name := {| counter := 0;
                              waiters := waiters s ++ [tick];
                              running := running s |}]> (sems st);
         trace := trace st ++ [Blocked name tick] |}
  | S c =>
      {| sems := <[name := {| counter := c;
                              waiters := waiters s;
                              running := running s ++ [tick] |}]> (sems st);
         trace := trace st ++ [Started name tick] |}
  end.

(** [wrapper] as called by the periodic loop.  With [parallel] the
    function is handed to [spawn_n] and the wrapper returns; the greenthread
    runs once the loop has yielded.  Without, the function runs inside the
    call. *)
Definition wrapper (t : decorated) (tick : nat) (st : sched) : sched :=
  let name := task_name t in
  let st := log (Called name tick) st in
  if parallel t then
    _internal name tick (log (Returned name tick) (log (Spawned name tick) st))
  else
    log (Returned name tick)
      (log (Ended name tick) (log (Started name tick) st)).

(** A run on a worker greenthread returns: leaving [with semaphore]
    releases the semaphore, and the first waiter takes it and starts. *)
Definition func_returns (name : string) (tick : nat) (st : sched) : sched :=
  let s := sems st name in
  if bool_decide (tick ∈ running s) then
    let running' := filter (λ i, i ≠ tick) (running s) in
    match waiters s with
    | [] =>
        {| sems := <[name := {| counter := S (counter s);
                                waiters := [];
                                running := running' |}]> (sems st);
           trace := trace st ++ [Ended name tick] |}
    | next :: ws =>
        {| sems := <[name := {| counter := counter s;
                                waiters := ws;
                                running := running' ++ [next] |}]> (sems st);
           trace := trace st ++ [Ended name tick; Started name next] |}
    end
  else st.

(** What drives the system: a tick of the periodic loop for a task, and the
    end of a run in progress. *)
Inductive event :=
  | Tick (t : decorated) (tick : nat)
  | FuncReturns (name : string) (tick : nat).

Definition step (st : sched) (ev : event) : sched :=
  match ev with
  | Tick t tick => wrapper t tick st
  | FuncReturns name tick => func_returns name tick st
  end.

Definition run (evs : list event) : sched := foldl step initial evs.

(** The ticks of a task that the loop called, and those whose run began. *)
Definition called_tick (name : string) (a : action) : option nat :=
  match a with
  | Called n i => if decide (n = name) then Some i else None
  | _ => None
  end.

Definition started_tick (name : string) (a : action) : option nat :=
  match a with
  | Started n i => if decide (n = name) then Some i else None
  | _ => None
  end.

Definition called_of (name : string) (tr : list action) : list nat :=
  omap (called_tick name) tr.
Definition started_of (name : string) (tr : list action) : list nat :=
  omap (started_tick name) tr.

(** A housekeeping task on a dedicated worker. *)
Definition sweep : decorated := {| task_name := "sweep"; parallel := true |}.

(** What holds of every task in every reachable state. *)
Definition sem_inv (st : sched) (name : string) : Prop :=
  let s := sems st name in
  counter s + length (running s) = 1
  ∧ started_of name (trace st) ++ waiters s ≡ₚ called_of name (trace st)
  ∧ (waiters s ≠ [] → counter s = 0).

End PeriodicTask.

(** ** Task lease manager *)

Module TaskLease.
Local Open Scope nat_scope.

(** Modelled from the spec: the lease manager is
    [ironic/conductor/task_manager.py], which is not part of the sources at
    hand; only its callers are ([task_manager.acquire(..., shared=False)] in
    the tests, [require_exclusive_lock] in the DRAC power interface).  The
    definitions of this module follow sections 3, 4.1 and 8 of the spec: a
    node record carries the reservation; a lease is the pairing of node,
    holder, acquisition time and exclusivity; acquisition, release and
    reclamation are atomic conditional updates of the store. *)
Record node := Node {
  reservation : option string;
  shared_holders : list string;
}.

Record lease := Lease {
  lease_node : string;
  lease_holder : string;
  acquired_at : nat;
  lease_exclusive : bool;
}.

Global Instance lease_eq_dec : EqDecision lease.
Proof. solve_decision. Defined.

(** Modelled from the spec: the durable node store, the leases in force,
    the registry of live workers and a clock. *)
Record state := State {
  nodes : gmap string node;
  leases : list lease;
  registry : gset string;
  now : nat;
}.

Inductive error := NodeLocked | NodeNotFound.

Definition initial : state :=
  {| nodes := ∅; leases := []; registry := ∅; now := 0 |}.

(** Modelled from the spec: [is_alive(holder_id)] of the worker liveness
    registry; a lease is reclaimable once its holder is not alive. *)
Definition is_alive (st : state) (holder : string) : bool :=
  bool_decide (holder ∈ registry st).

(** Modelled from the spec: [acquire(node_id, exclusive, holder_id)].  An
    exclusive request succeeds only on an unreserved node without shared
    holders; a shared request succeeds unless the node is reserved
    exclusively; the update of the store is one atomic step. *)
Definition acquire (st : state) (node_id : string) (exclusive : bool)
    (holder_id : string) : error + (lease * state) :=
  match nodes st !! node_id with
  | None => inl NodeNotFound
  | Some nd =>
      let l := {| lease_node := node_id; lease_holder := holder_id;
                  acquired_at := now st; lease_exclusive := exclusive |} in
      if exclusive then
        match reservation nd, shared_holders nd with
        | None, [] =>
            inr (l, {| nodes := <[node_id := {| reservation := Some holder_id;
                                                shared_holders := [] |}]>
                                  (nodes st);
                       leases := leases st ++ [l];
                       registry := registry st;
                       now := S (now st) |})
        | _, _ => inl NodeLocked
        end
      else
        match reservation nd with
        | None =>
            inr (l, {| nodes := <[node_id :=
                                    {| reservation := None;
                                       shared_holders :=
                                         shared_holders nd ++ [holder_id] |}]>
                                  (nodes st);
                       leases := leases st ++ [l];
                       registry := registry st;
                       now := S (now st) |})
        | Some _ => inl NodeLocked
        end
  end.

(** The node record once the holders picked out by [gone] have let go. *)
Definition drop_holders (gone : string → bool) (nd : node) : node :=
  {| reservation :=
       match reservation nd with
       | Some h => if gone h then None else Some h
       | None => None
       end;
     shared_holders := filter (λ h, gone h = false) (shared_holders nd) |}.

(** Clearing, on one node, every lease whose holder is picked out by
    [gone]: the conditional update shared by release and reclamation. *)
Definition clear (gone : string → bool) (node_id : string) (st : state)
  : state :=
  match nodes st !! node_id with
  | None => st
  | Some nd =>
      {| nodes := <[node_id := drop_holders gone nd]> (nodes st);
         leases := filter (λ l, ¬ (lease_node l = node_id
                                   ∧ gone (lease_holder l) = true))
                          (leases st);
         registry := registry st;
         now := S (now st) |}
  end.

(** Modelled from the spec: release by the holder, keyed on the holder's
    identity; releasing what is not held changes nothing but the clock. *)
Definition release (st : state) (node_id holder_id : string) : state :=
  clear (λ h, bool_decide (h = holder_id)) node_id st.

(** Modelled from the spec: the reclamation sweep on one node clears the
    leases whose holder is absent from the live-worker registry. *)
Definition reclaim (st : state) (node_id : string) : state :=
  clear (λ h, negb (is_alive st h)) node_id st.

(** Modelled from the spec: enrolment creates an unreserved node. *)
Definition enroll (st : state) (node_id : string) : state :=
  match nodes st !! node_id with
  | Some _ => st
  | None =>
      {| nodes := <[node_id := {| reservation := None;
                                  shared_holders := [] |}]> (nodes st);
         leases := leases st;
         registry := registry st;
         now := S (now st) |}
  end.

Definition set_registry (r : gset string) (st : state) : state :=
  {| nodes := nodes st; leases := leases st; registry := r; now := now st |}.

(** What callers and workers do to the lease manager. *)
Inductive event :=
  | Enroll (node_id : string)
  | Acquire (node_id : string) (exclusive : bool) (holder_id : string)
  | Release (node_id holder_id : string)
  | Register (holder_id : string)
  | Unregister (holder_id : string)
  | Reclaim (node_id : string).

Definition step (st : state) (ev : event) : state :=
  match ev with
  | Enroll n => enroll st n
  | Acquire n exclusive h =>
      match acquire st n exclusive h with
      | inr (_, st') => st'
      | inl _ => st
      end
  | Release n h => release st n h
  | Register h => set_registry ({[h]} ∪ registry st) st
  | Unregister h => set_registry (registry st ∖ {[h]}) st
  | Reclaim n => reclaim st n
  end.

Definition run (evs : list event) : state := foldl step initial evs.

(** The leases in force on a node. *)
Definition leases_on (node_id : string) (ls : list lease) : list lease :=
  filter (λ l, lease_node l = node_id) ls.

(** The store and the leases in force agree on every node. *)
Definition lease_inv (st : state) (node_id : string) : Prop :=
  match nodes st !! node_id with
  | None => leases_on node_id (leases st) = []
  | Some nd =>
      match reservation nd with
      | Some h =>
          shared_holders nd = []
          ∧ ∃ t, leases_on node_id (leases st) = [Lease node_id h t true]
      | None =>
          Forall (λ l, lease_exclusive l = false)
                 (leases_on node_id (leases st))
          ∧ lease_holder <$> leases_on node_id (leases st)
            ≡ₚ shared_holders nd
      end
  end.

(** Worker [w1] holds node [n1] exclusively and is alive. *)
Definition w1_holds_n1 : list event :=
  [Enroll "n1"; Register "w1"; Register "w2"; Acquire "n1" true "w1"].

End TaskLease.

(** ** Execution of a clean step ([BaseInterface.execute_clean_step]) *)

Module CleanStepExec.
Import CleanSteps.

Inductive exn := AttributeError (attr : string).

(** [getattr(self, step['step'])]: the attribute that
    [execute_clean_step(self, task, step)] then calls with the task. *)
Definition execute_clean_step (self : instance) (step_ : step_dict)
  : exn + member :=
  match inst_attributes self !! step step_ with
  | Some m => inr m
  | None => inl (AttributeError (step step_))
  end.

(** A class whose tagged function is bound under another name, as after
    [reset = clean_step(5)(wipe)]. *)
Definition renamed_step : class :=
  {| interface_type := "management";
     declarations := [ ("reset", Method (clean_step 5 (def "wipe"))) ] |}.

End CleanStepExec.

(** ** Controllers for the examples of the DRAC power interface *)

Module DracPowerCases.
Import DracPower.

(** A node whose credentials do not give a client. *)
Definition no_credentials : bmc :=
  {| credentials_ok := false;
     enumerate_reply := inr "2";
     invoke_reply := λ _, None;
     calls := [] |}.

(** A controller that does not answer the enumeration. *)
Definition unreachable : bmc :=
  {| credentials_ok := true;
     enumerate_reply := inl DracClientError;
     invoke_reply := λ _, None;
     calls := [] |}.

End DracPowerCases.

(** ** iLO operations ([ironic/drivers/modules/ilo/common.py]) *)

Module IloOps.
Import Py IloCommon.

(** Errors of the iLO client library; [IloCommandNotSupportedError] derives
    from [IloError], so [except IloError] catches both. *)
Inductive ilo_error :=
  | IloError (message : string)
  | IloCommandNotSupportedError (message : string).

(** What the functions send out: the construction of a client, the calls on
    it, the deletion of a Swift object, and [node.save()]. *)
Inductive call :=
  | NewClient (address username password timeout port : value)
  | GetAllLicenses
  | GetPendingBootMode
  | SetPendingBootMode (mode : string)
  | GetCurrentBootMode
  | GetSecureBootMode
  | SetSecureBootMode (flag : bool)
  | InsertVirtualMedia (url device : string)
  | SetVmStatus (device boot_option write_protect : string)
  | EjectVirtualMedia (device : string)
  | SwiftDeleteObject (container object_name : string)
  | NodeSave.

Inductive exn :=
  | Parse (e : IloCommon.exn)
  | Ilo (e : ilo_error)
  | IloOperationError (operation : string) (error : ilo_error)
  | IloOperationNotSupported (operation : string) (error : ilo_error)
  | KeyError (key : string).

(** The surroundings of a call: the configuration, and how the controller
    and Swift answer, given the calls made so far. *)
Record env := Env {
  conf : ilo_opts;
  swift_ilo_container : string;
  fails : list call → call → option ilo_error;
  swift_api_fails : list call → bool;
  all_licenses : list call → gmap string string;
  pending_boot_mode : list call → string;
  current_boot_mode : list call → string;
  secure_boot : list call → bool;
}.

Record node := Node {
  uuid : string;
  driver_info : gmap string value;
  instance_info : gmap string string;
}.

(** Computations that may raise, over the calls made so far. *)
Definition M (A : Type) : Type := list call → (exn + A) * list call.

Definition ret {A} (a : A) : M A := λ log, (inr a, log).
Definition raise {A} (e : exn) : M A := λ log, (inl e, log).
Definition bind {A B} (m : M A) (k : A → M B) : M B :=
  λ log, match m log with
         | (inr a, log') => k a log'
         | (inl e, log') => (inl e, log')
         end.

Global Instance M_ret : MRet M := @ret.
Global Instance M_bind : MBind M := λ A B k m, bind m k.

(** A call that cannot fail as far as the caller is concerned. *)
Definition tell (c : call) : M unit := λ log, (inr (), log ++ [c]).

(** A call on the client that returns nothing: the error it raises, if
    any, is handed to the caller's [try]. *)
Definition request (E : env) (c : call) : M (option ilo_error) :=
  λ log, (inr (fails E log c), log ++ [c]).

(** A call on the client that returns a value. *)
Definition ask {A} (E : env) (c : call) (answer : list call → A)
  : M (ilo_error + A) :=
  λ log, (inr (match fails E log c with
               | Some e => inl e
               | None => inr (answer log)
               end), log ++ [c]).

(** A dictionary subscript. *)
Definition subscript {A} (d : gmap string A) (key : string) : M A :=
  match d !! key with
  | Some a => ret a
  | None => raise (KeyError key)
  end.

Definition STANDARD_LICENSE : Z := 1.
Definition ESSENTIALS_LICENSE : Z := 2.
Definition ADVANCED_LICENSE : Z := 3.

Definition DEFAULT_BOOT_MODE : string := "LEGACY".

Definition BOOT_MODE_GENERIC_TO_ILO : gmap string string :=
  <["bios" := "legacy"]> (<["uefi" := "uefi"]> ∅).

(** [dict((v, k) for (k, v) in d.items())] *)
Definition invert (d : gmap string string) : gmap string string :=
  foldl (λ acc kv, <[kv.2 := kv.1]> acc) ∅ (map_to_list d).

Definition BOOT_MODE_ILO_TO_GENERIC : gmap string string :=
  invert BOOT_MODE_GENERIC_TO_ILO.

(** [str.lower] and [str.upper] on ASCII letters. *)
Definition lower_char (c : Ascii.ascii) : Ascii.ascii :=
  let n := Ascii.N_of_ascii c in
  if ((65 <=? n) && (n <=? 90))%N then Ascii.ascii_of_N (n + 32) else c.

Definition upper_char (c : Ascii.ascii) : Ascii.ascii :=
  let n := Ascii.N_of_ascii c in
  if ((97 <=? n) && (n <=? 122))%N then Ascii.ascii_of_N (n - 32) else c.

Fixpoint lower (s : string) : string :=
  match s with
  | EmptyString => EmptyString
  | String c s' => String (lower_char c) (lower s')
  end.

Fixpoint upper (s : string) : string :=
  match s with
  | EmptyString => EmptyString
  | String c s' => String (upper_char c) (upper s')
  end.

Fixpoint startswith (s prefix : string) : bool :=
  match prefix, s with
  | EmptyString, _ => true
  | String a p', String b s' => Ascii.eqb a b && startswith s' p'
  | String _ _, EmptyString => false
  end.

(** [s.endswith(suffix)] *)
Definition endswith (s suffix : string) : bool :=
  startswith (String.rev s) (String.rev suffix).

(** [get_ilo_object(node)]: the client is built from the parsed driver
    information. *)
Definition get_ilo_object (E : env) (n : node) : M unit :=
  match parse_driver_info (conf E) (driver_info n) with
  | inl e => raise (Parse e)
  | inr d =>
      a ← subscript d "ilo_address";
      u ← subscript d "ilo_username";
      pw ← subscript d "ilo_password";
      t ← subscript d "client_timeout";
      pt ← subscript d "client_port";
      tell (NewClient a u pw t pt)
  end.

(** [get_ilo_license(node)] *)
Definition get_ilo_license (E : env) (n : node) : M Z :=
  get_ilo_object E n;;
  r ← ask E GetAllLicenses (all_licenses E);
  match r with
  | inl e => raise (IloOperationError "iLO license check" e)
  | inr license_info =>
      current_license_type ← subscript license_info "LICENSE_TYPE";
      if endswith current_license_type "Advanced" then ret ADVANCED_LICENSE
      else if endswith current_license_type "Essentials"
           then ret ESSENTIALS_LICENSE
           else ret STANDARD_LICENSE
  end.

(** [info.get(key)] *)
Definition get (info : gmap string value) (key : string) : value :=
  default PyNone (info !! key).

(** [update_ipmi_properties(task)], on [task.node.driver_info]. *)
Definition update_ipmi_properties (info : gmap string value)
  : gmap string value :=
  let info := <["ipmi_address" := get info "ilo_address"]> info in
  let info := <["ipmi_username" := get info "ilo_username"]> info in
  let info := <["ipmi_password" := get info "ilo_password"]> info in
  match info !! "console_port" with
  | Some port => <["ipmi_terminal_port" := port]> info
  | None => info
  end.

(** [_get_floppy_image_name(node)] *)
Definition _get_floppy_image_name (n : node) : string :=
  "image-" +:+ uuid n.

(** [attach_vmedia(node, device, url)] *)
Definition attach_vmedia (E : env) (n : node) (device url : string) : M unit :=
  let operation := "Inserting virtual media " +:+ device in
  get_ilo_object E n;;
  r ← request E (InsertVirtualMedia url device);
  match r with
  | Some e => raise (IloOperationError operation e)
  | None =>
      r ← request E (SetVmStatus device "CONNECT" "YES");
      match r with
      | Some e => raise (IloOperationError operation e)
      | None => ret ()
      end
  end.

(** [try: ...get_pending_boot_mode() except IloCommandNotSupportedError:]
    with the given fallback; any other error of the client is not caught. *)
Definition pending_or (E : env) (fallback : string) : M string :=
  r ← ask E GetPendingBootMode (pending_boot_mode E);
  match r with
  | inr mode => ret mode
  | inl (IloCommandNotSupportedError _) => ret fallback
  | inl e => raise (Ilo e)
  end.

(** [ilo_object.set_pending_boot_mode(BOOT_MODE_GENERIC_TO_ILO[boot_mode]
    .upper())] inside its [try]. *)
Definition set_pending (E : env) (boot_mode : string) : M unit :=
  ilo_mode ← subscript BOOT_MODE_GENERIC_TO_ILO boot_mode;
  r ← request E (SetPendingBootMode (upper ilo_mode));
  match r with
  | Some e =>
      raise (IloOperationError ("Setting " +:+ boot_mode +:+ " as boot mode") e)
  | None => ret ()
  end.

(** [set_boot_mode(node, boot_mode)] *)
Definition set_boot_mode (E : env) (n : node) (boot_mode : string) : M unit :=
  get_ilo_object E n;;
  p_boot_mode ← pending_or E DEFAULT_BOOT_MODE;
  generic ← subscript BOOT_MODE_ILO_TO_GENERIC (lower p_boot_mode);
  if bool_decide (generic = boot_mode) then ret ()
  else set_pending E boot_mode.

(** [update_boot_mode(task)]; [boot_mode_for_deploy] is the result of
    [deploy_utils.get_boot_mode_for_deploy(node)].  The node as it is after
    the call is returned. *)
Definition update_boot_mode (E : env) (boot_mode_for_deploy : option string)
    (n : node) : M node :=
  match boot_mode_for_deploy with
  | Some boot_mode => set_boot_mode E n boot_mode;; ret n
  | None =>
      get_ilo_object E n;;
      boot_mode ← pending_or E "legacy";
      boot_mode ← (if bool_decide (boot_mode ≠ "UNKNOWN")
                   then subscript BOOT_MODE_ILO_TO_GENERIC (lower boot_mode)
                   else ret boot_mode);
      boot_mode ← (if bool_decide (boot_mode = "UNKNOWN")
                   then set_pending E "uefi";; ret "uefi"
                   else ret boot_mode);
      let n' := {| uuid := uuid n;
                   driver_info := driver_info n;
                   instance_info :=
                     <["deploy_boot_mode" := boot_mode]> (instance_info n) |} in
      tell NodeSave;; ret n'
  end.

(** The first [try] of [cleanup_vmedia_boot]: when [SwiftAPI()] raises,
    nothing is deleted; a [SwiftOperationError] is logged and dropped either
    way. *)
Definition delete_floppy_image (E : env) (n : node) : M unit :=
  λ log,
    if swift_api_fails E log then (inr (), log)
    else (inr (), log ++ [SwiftDeleteObject (swift_ilo_container E)
                                            (_get_floppy_image_name n)]).

(** [cleanup_vmedia_boot(task)]: the errors of the ejections are logged and
    dropped. *)
Definition cleanup_vmedia_boot (E : env) (n : node) : M unit :=
  delete_floppy_image E n;;
  get_ilo_object E n;;
  request E (EjectVirtualMedia "FLOPPY");;
  request E (EjectVirtualMedia "CDROM");;
  ret ().

(** The two [except] clauses shared by the secure boot functions. *)
Definition secure_boot_error (operation : string) (e : ilo_error) : exn :=
  match e with
  | IloCommandNotSupportedError _ => IloOperationNotSupported operation e
  | IloError _ => IloOperationError operation e
  end.

(** [get_secure_boot_mode(task)] *)
Definition get_secure_boot_mode (E : env) (n : node) : M bool :=
  let operation := "Get secure boot mode for node " +:+ uuid n +:+ "." in
  get_ilo_object E n;;
  r ← ask E GetCurrentBootMode (current_boot_mode E);
  match r with
  | inl e => raise (secure_boot_error operation e)
  | inr current_boot_mode =>
      if bool_decide (current_boot_mode = "UEFI") then
        r ← ask E GetSecureBootMode (secure_boot E);
        match r with
        | inl e => raise (secure_boot_error operation e)
        | inr secure_boot_state => ret secure_boot_state
        end
      else ret false
  end.

(** [set_secure_boot_mode(task, flag)] *)
Definition set_secure_boot_mode (E : env) (n : node) (flag : bool) : M unit :=
  let operation := "Setting secure boot to "
                   +:+ (if flag then "True" else "False")
                   +:+ " for node " +:+ uuid n +:+ "." in
  get_ilo_object E n;;
  r ← request E (SetSecureBootMode flag);
  match r with
  | Some e => raise (secure_boot_error operation e)
  | None => ret ()
  end.

(** The calls a computation adds to those made before. *)
Definition sends {A} (m : M A) (log : list call) (cs : list call) : Prop :=
  (m log).2 = log ++ cs.

(** A controller in UEFI mode with secure boot on that answers every call,
    and a node with complete driver information. *)
Definition uefi_env : env :=
  {| conf := default_opts;
     swift_ilo_container := "ironic_ilo_container";
     fails := λ _ _, None;
     swift_api_fails := λ _, false;
     all_licenses := λ _, {["LICENSE_TYPE" := "iLO 4 Advanced"]};
     pending_boot_mode := λ _, "UNKNOWN";
     current_boot_mode := λ _, "UEFI";
     secure_boot := λ _, true |}.

(** The same controller refusing every call as unsupported. *)
Definition unsupported_env : env :=
  {| conf := default_opts;
     swift_ilo_container := "ironic_ilo_container";
     fails := λ _ _, Some (IloCommandNotSupportedError "not supported");
     swift_api_fails := λ _, false;
     all_licenses := λ _, ∅;
     pending_boot_mode := λ _, "UNKNOWN";
     current_boot_mode := λ _, "UEFI";
     secure_boot := λ _, true |}.

Definition good_node : node :=
  {| uuid := "1be26c0b"; driver_info := good_info; instance_info := ∅ |}.

End IloOps.

(** ** Vendor passthru routes ([_passthru], [passthru],
       [driver_passthru] and [VendorInterface.__new__] in
       [ironic/drivers/base.py]) *)

Module VendorRoutes.

(** The dictionary [{'http_methods': ..., 'async': ..., 'description': ...}]. *)
Record metadata := Metadata {
  http_methods : list string;
  async : bool;
  description : string;
}.

(** [VendorMetadata(method, metadata)] *)
Record vendor_metadata := VendorMetadata {
  method : string;
  metadata_of : metadata;
}.

(** A function object with the two attributes the decorators write. *)
Record function := Function {
  __name__ : string;
  _vendor_metadata : option vendor_metadata;
  _driver_metadata : option vendor_metadata;
}.

Definition def (name : string) : function :=
  {| __name__ := name; _vendor_metadata := None; _driver_metadata := None |}.

(** [_passthru(http_methods, method, async, driver_passthru,
    description)(func)], as far as attributes go: the metadata is written
    to [func], and the handler returned in its place takes over the name and
    the attributes of [func] ([functools.wraps]).  [description or ''] is the
    description, or the empty string for [None]. *)
Definition _passthru (http_methods : list string) (method : option string)
    (async : bool) (driver_passthru : bool) (description : option string)
    (func : function) : function :=
  let api_method := default (__name__ func) method in
  let supported_ := IloOps.upper <$> http_methods in
  let description_ := default "" description in
  let metadata := VendorMetadata api_method
                    {| http_methods := supported_;
                       async := async;
                       description := description_ |} in
  if driver_passthru then
    {| __name__ := __name__ func;
       _vendor_metadata := _vendor_metadata func;
       _driver_metadata := Some metadata |}
  else
    {| __name__ := __name__ func;
       _vendor_metadata := Some metadata;
       _driver_metadata := _driver_metadata func |}.

(** [passthru(http_methods, method, async, description)] *)
Definition passthru (http_methods : list string) (method : option string)
    (async : bool) (description : option string) : function → function :=
  _passthru http_methods method async false description.

(** [driver_passthru(http_methods, method, async, description)] *)
Definition driver_passthru (http_methods : list string)
    (method : option string) (async : bool) (description : option string)
  : function → function :=
  _passthru http_methods method async true description.

Inductive member :=
  | Method (f : function)
  | Attribute.

Definition ismethod (m : member) : bool :=
  match m with Method _ => true | Attribute => false end.

(** A route: the copy of the metadata with ['func'] set to the method. *)
Record route := Route {
  route_metadata : metadata;
  func : function;
}.

Record instance := Instance {
  vendor_routes : gmap string route;
  driver_routes : gmap string route;
}.

Definition key_le (a b : string * member) : Prop := String.le a.1 b.1.

Global Instance key_le_dec : RelDecision key_le.
Proof. intros a b. unfold key_le. apply _. Defined.

(** [inspect.getmembers(inst, predicate=inspect.ismethod)] *)
Definition getmembers (ns : gmap string member) (predicate : member → bool)
  : list (string * member) :=
  merge_sort key_le (filter (λ kv, predicate kv.2 = true) (map_to_list ns)).

(** The body of the loop of [VendorInterface.__new__]. *)
Definition add_routes (inst : instance) (nr : string * member) : instance :=
  match nr.2 with
  | Method ref =>
      let inst :=
        match _vendor_metadata ref with
        | Some vmeta =>
            {| vendor_routes :=
                 <[method vmeta := {| route_metadata := metadata_of vmeta;
                                      func := ref |}]> (vendor_routes inst);
               driver_routes := driver_routes inst |}
        | None => inst
        end in
      match _driver_metadata ref with
      | Some dmeta =>
          {| vendor_routes := vendor_routes inst;
             driver_routes :=
               <[method dmeta := {| route_metadata := metadata_of dmeta;
                                    func := ref |}]> (driver_routes inst) |}
      | None => inst
      end
  | Attribute => inst
  end.

(** [VendorInterface.__new__(cls)], on the attributes of the instance. *)
Definition new (ns : gmap string member) : instance :=
  foldl add_routes {| vendor_routes := ∅; driver_routes := ∅ |}
        (getmembers ns ismethod).

(** One of the two tables, built on its own. *)
Definition add_route (sel : function → option vendor_metadata)
    (routes : gmap string route) (nr : string * member) : gmap string route :=
  match nr.2 with
  | Method ref =>
      match sel ref with
      | Some meta =>
          <[method meta := {| route_metadata := metadata_of meta;
                              func := ref |}]> routes
      | None => routes
      end
  | Attribute => routes
  end.

(** The methods of [ns] that [sel] finds decorated have distinct route
    names. *)
Definition distinct_routes (sel : function → option vendor_metadata)
    (ns : gmap string member) : Prop :=
  ∀ n1 n2 f1 f2 m1 m2,
    ns !! n1 = Some (Method f1) → ns !! n2 = Some (Method f2) →
    sel f1 = Some m1 → sel f2 = Some m2 →
    method m1 = method m2 → n1 = n2.

(** A vendor interface with a node method and a driver method. *)
Definition sample_vendor : gmap string member :=
  <["heartbeat" := Method (passthru ["post"] None true None (def "heartbeat"))]>
  (<["lookup" := Method (driver_passthru ["post"; "Get"] (Some "find") false
                           (Some "find a node") (def "lookup"))]>
  (<["validate" := Method (def "validate")]> ∅)).

End VendorRoutes.

(** ** Stacked passthru handlers *)

Module PassthruStack.
Import Passthru.

(** The handler as the callable it is: [functools.wraps] gives it the name
    of the function it wraps.  What it logs is left aside here. *)
Definition handler {A S V} (method : option string) (func : callable A S V)
  : callable A S V :=
  {| name := name func;
     call := λ args s, (passthru_handler method func args s).1 |}.

End PassthruStack.

(** ** Events of one periodic task *)

Module PeriodicTaskEvents.
Import PeriodicTask.

(** The event is a tick or a completion of the task called [name]. *)
Definition concerns (name : string) (ev : event) : Prop :=
  match ev with
  | Tick t _ => task_name t = name
  | FuncReturns n _ => n = name
  end.

Global Instance concerns_dec name ev : Decision (concerns name ev).
Proof. destruct ev; simpl; apply _. Defined.

(** A second housekeeping task, run inline. *)
Definition sync : decorated := {| task_name := "sync"; parallel := false |}.

End PeriodicTaskEvents.

(** ** Properties of clean step discovery *)

Module CleanStepsFacts.
Import CleanSteps.

Lemma foldl_record_step itype acc l :
  foldl (record_step itype) acc l = acc ++ omap (step_of itype) l.
Proof.
  revert acc. induction l as [|nm l IH]; intros acc; simpl.
  - by rewrite app_nil_r.
  - rewrite IH. unfold record_step, step_of.
    destruct (nm.2) as [f|]; simpl; [|done].
    destruct (_clean_step_priority f); simpl; [|done].
    by rewrite <- app_assoc.
Qed.

Lemma clean_steps_new cls :
  clean_steps (new cls)
  = omap (step_of (interface_type cls)) (getmembers (attributes cls) ismethod).
Proof. unfold new; simpl. by rewrite foldl_record_step. Qed.

Lemma getmembers_perm ns predicate :
  getmembers ns predicate
  ≡ₚ filter (λ kv, predicate kv.2 = true) (map_to_list ns).
Proof. apply merge_sort_Permutation. Qed.

Lemma elem_of_getmembers ns predicate n m :
  (n, m) ∈ getmembers ns predicate ↔ ns !! n = Some m ∧ predicate m = true.
Proof.
  rewrite getmembers_perm, list_elem_of_filter, elem_of_map_to_list.
  simpl. tauto.
Qed.

Lemma step_of_Some itype nm e :
  step_of itype nm = Some e ↔
  ∃ f, nm.2 = Method f ∧ _clean_step_priority f = Some (priority e)
       ∧ step e = __name__ f ∧ interface e = itype.
Proof.
  unfold step_of. split.
  - destruct (nm.2) as [f|]; [|done].
    destruct (_clean_step_priority f) as [p|] eqn:Hp; [|done].
    simpl. intros [= <-]. exists f. by simpl.
  - intros (f & -> & Hp & Hs & Hi). rewrite Hp. simpl.
    destruct e; simpl in *. by subst.
Qed.





Example mixed_priorities_steps :
  get_clean_steps (new mixed_priorities) () =
  [ {| step := "clear_keys"; priority := -5; interface := "management" |};
    {| step := "reset_bios"; priority := 30; interface := "management" |};
    {| step := "reset_ilo"; priority := 0; interface := "management" |} ].
Proof. vm_compute. reflexivity. Qed.

(** *** Ordering of the step queue *)

Global Instance prio_ge_trans : Transitive prio_ge.
Proof. unfold prio_ge. intros a b c ??. lia. Qed.

Lemma insert_step_perm x l : insert_step x l ≡ₚ x :: l.
Proof.
  induction l as [|y l IH]; simpl; [done|].
  case_bool_decide; [|done].
  rewrite IH. apply perm_swap.
Qed.

Lemma execution_order_perm l : execution_order l ≡ₚ l.
Proof.
  induction l as [|x l IH]; simpl; [done|].
  by rewrite insert_step_perm, IH.
Qed.

Lemma insert_step_sorted x l :
  Sorted prio_ge l → Sorted prio_ge (insert_step x l).
Proof.
  induction l as [|y l IH]; simpl; intros Hs.
  - by repeat constructor.
  - apply Sorted_inv in Hs as [Hs Hhd].
    case_bool_decide as Hlt.
    + constructor; [by apply IH|].
      destruct l as [|z l]; simpl.
      * constructor. unfold prio_ge. lia.
      * apply HdRel_inv in Hhd. case_bool_decide; constructor;
          unfold prio_ge in *; lia.
    + constructor; [by constructor|]. constructor. unfold prio_ge. lia.
Qed.

Lemma execution_order_sorted l : StronglySorted prio_ge (execution_order l).
Proof.
  apply Sorted_StronglySorted; [apply _|].
  induction l as [|x l IH]; simpl; [constructor|].
  by apply insert_step_sorted.
Qed.

Lemma insert_step_stable p x l :
  with_priority p (insert_step x l) = with_priority p (x :: l).
Proof.
  unfold with_priority.
  induction l as [|y l IH]; simpl; [done|].
  case_bool_decide as Hlt; [|done].
  rewrite (filter_cons _ y), IH, !filter_cons.
  repeat case_decide; try done; lia.
Qed.

Lemma execution_order_stable p l :
  with_priority p (execution_order l) = with_priority p l.
Proof.
  induction l as [|x l IH]; simpl; [done|].
  rewrite insert_step_stable. unfold with_priority in *.
  by rewrite !filter_cons, IH.
Qed.

(** *** Discovery order is attribute-name order *)

Global Instance key_le_trans : Transitive key_le.
Proof. unfold key_le. intros a b c ??. by etrans. Qed.

Global Instance key_le_total : Total key_le.
Proof. unfold key_le. intros a b. apply (total String.le). Qed.

Lemma strongly_sorted_strict (l : list (string * member)) :
  StronglySorted key_le l → NoDup (l.*1) → StronglySorted key_lt l.
Proof.
  induction l as [|x l IH]; intros Hs Hn; [constructor|].
  apply StronglySorted_cons in Hs as [Hx Hs].
  rewrite fmap_cons in Hn. apply NoDup_cons in Hn as [Hnx Hn].
  constructor; [by apply IH|].
  rewrite Forall_forall in Hx |- *. intros y Hy. split; [by apply Hx|].
  intros Heq. apply Hnx. rewrite Heq. by apply list_elem_of_fmap_2.
Qed.

Lemma getmembers_sorted ns predicate :
  StronglySorted key_lt (getmembers ns predicate).
Proof.
  apply strongly_sorted_strict.
  - apply StronglySorted_merge_sort; apply _.
  - rewrite getmembers_perm.
    eapply sublist_NoDup; [apply (NoDup_fst_map_to_list ns)|].
    apply fmap_sublist, sublist_filter.
Qed.

Lemma omap_sorted {A B} (R : relation A) (R' : relation B)
    (g : A → option B) (l : list A) :
  (∀ a b a' b', a ∈ l → b ∈ l → R a b →
                g a = Some a' → g b = Some b' → R' a' b') →
  StronglySorted R l → StronglySorted R' (omap g l).
Proof.
  induction l as [|x l IH]; intros Hg Hs; [constructor|].
  apply StronglySorted_cons in Hs as [Hx Hs]. simpl.
  assert (StronglySorted R' (omap g l)) as Hl.
  { apply IH; [|done]. intros a b a' b' Ha Hb. apply Hg; by right. }
  destruct (g x) as [x'|] eqn:Hgx; [|done].
  constructor; [done|].
  rewrite Forall_forall in Hx. apply Forall_forall.
  intros y' (y & Hy & Hgy)%list_elem_of_omap.
  apply (Hg x y); [left|by right|by apply Hx|done|done].
Qed.

Lemma filter_sorted {A} (R : relation A) (P : A → Prop)
    `{∀ x, Decision (P x)} (l : list A) :
  StronglySorted R l → StronglySorted R (filter P l).
Proof.
  induction l as [|x l IH]; intros Hs; [constructor|].
  apply StronglySorted_cons in Hs as [Hx Hs].
  rewrite filter_cons. destruct (decide (P x)); [|by apply IH].
  constructor; [by apply IH|].
  rewrite Forall_forall in Hx |- *.
  intros y [_ Hy]%list_elem_of_filter. by apply Hx.
Qed.

Lemma clean_steps_name_sorted cls :
  def_names cls → StronglySorted name_lt (clean_steps (new cls)).
Proof.
  intros Hdef. rewrite clean_steps_new.
  eapply omap_sorted; [|apply getmembers_sorted].
  intros [n m] [n' m'] e e' Hin Hin' [Hle Hne] He He'.
  apply elem_of_getmembers in Hin as [Hn _].
  apply elem_of_getmembers in Hin' as [Hn' _].
  apply step_of_Some in He as (f & Hm & _ & Hs & _).
  apply step_of_Some in He' as (f' & Hm' & _ & Hs' & _).
  simpl in *. subst m m'.
  unfold name_lt. rewrite Hs, Hs', (Hdef _ _ Hn), (Hdef _ _ Hn'). done.
Qed.

Lemma two_erasers_def_names : def_names two_erasers.
Proof.
  intros n f. unfold two_erasers, attributes, bind. simpl.
  rewrite !lookup_insert. repeat case_decide; subst; simpl;
    try (intros [= <-]; done); try done.
Qed.

(** C2 (claim as written, refuted).  The class [two_erasers] declares
    [erase_b] before [erase_a], both with priority 10; the queue runs
    [erase_a] first, so steps of equal priority do not run in declaration
    order. *)
Lemma equal_priority_not_declaration_order :
  execution_order (clean_steps (new two_erasers))
  = [ {| step := "erase_a"; priority := 10; interface := "deploy" |};
      {| step := "erase_b"; priority := 10; interface := "deploy" |} ]
  ∧ declared_steps two_erasers
  = [ {| step := "erase_b"; priority := 10; interface := "deploy" |};
      {| step := "erase_a"; priority := 10; interface := "deploy" |} ]
  ∧ ¬ (∀ cls p,
         with_priority p (execution_order (clean_steps (new cls)))
         = with_priority p (declared_steps cls)).
Proof.
  split; [by vm_compute|]. split; [by vm_compute|].
  intros H. specialize (H two_erasers 10). vm_compute in H. discriminate H.
Qed.

(** C2 (amended).  The step queue of an interface is a rearrangement of its
    discovered steps in descending priority; steps of equal priority keep
    the order of discovery, and for methods bound under their own names that
    order is ascending method name, not declaration order.  Three steps of
    priorities 10, 50, 30 run in the order 50, 30, 10. *)
Theorem execution_order_priority_then_name (cls : class) :
  def_names cls →
  let steps := clean_steps (new cls) in
  execution_order steps ≡ₚ steps
  ∧ StronglySorted prio_ge (execution_order steps)
  ∧ (∀ p, with_priority p (execution_order steps) = with_priority p steps)
  ∧ (∀ p, StronglySorted name_lt (with_priority p (execution_order steps)))
  ∧ (∀ a b c, priority a = 10 → priority b = 50 → priority c = 30 →
              execution_order [a; b; c] = [b; c; a]).
Proof.
  intros Hdef steps. repeat split.
  - apply execution_order_perm.
  - apply execution_order_sorted.
  - intros p. apply execution_order_stable.
  - intros p. rewrite execution_order_stable. unfold with_priority.
    apply filter_sorted. by apply clean_steps_name_sorted.
  - intros a b c Ha Hb Hc. simpl.
    rewrite (bool_decide_eq_false_2 (priority b < priority c)) by lia.
    simpl. rewrite (bool_decide_eq_true_2 (priority a < priority b)) by lia.
    by rewrite (bool_decide_eq_true_2 (priority a < priority c)) by lia.
Qed.

Lemma execution_order_priority_then_name_witness :
  def_names two_erasers
  ∧ StronglySorted name_lt
      (with_priority 10 (execution_order (clean_steps (new two_erasers)))).
Proof.
  split; [apply two_erasers_def_names|].
  apply (execution_order_priority_then_name two_erasers two_erasers_def_names).
Defined.

End CleanStepsFacts.

(** ** Properties of the iLO driver-info parser *)

Module IloCommonFacts.
Import Py IloCommon.

Example parse_good_info :
  parse_driver_info default_opts good_info
  = inr (<["ilo_address" := PyStr "10.0.0.5"]>
        (<["ilo_username" := PyStr "admin"]>
        (<["ilo_password" := PyStr "secret"]>
        (<["client_port" := PyInt 8443]>
        (<["client_timeout" := PyInt 60]>
        (<["console_port" := PyInt 9000]> ∅)))))).
Proof. by vm_compute. Qed.

Example parse_bad_port :
  parse_driver_info default_opts (<["client_port" := PyStr "qwe"]> good_info)
  = inl (InvalidParameterValue ["client_port"]).
Proof. by vm_compute. Qed.

Example parse_missing_wins :
  parse_driver_info default_opts
    (delete "ilo_password" (<["client_port" := PyStr "qwe"]> good_info))
  = inl (MissingParameterValue ["ilo_password"]).
Proof. by vm_compute. Qed.

Lemma int_scalar v :
  scalar v → convertible v ∨ int v = inl ValueError.
Proof.
  destruct v; simpl; try done; intros _; unfold convertible; simpl; eauto.
  destruct (int_of_str s); eauto.
Qed.

Lemma not_convertible_error v : int v = inl ValueError → ¬ convertible v.
Proof. intros H [z Hz]. congruence. Qed.

Lemma all_required_lookups info :
  all_required info ↔
  is_Some (info !! "ilo_address") ∧ is_Some (info !! "ilo_username")
  ∧ is_Some (info !! "ilo_password").
Proof.
  unfold all_required, REQUIRED_PROPERTIES. split.
  - intros H. repeat split; apply H; set_solver.
  - intros (? & ? & ?) p Hp.
    repeat (apply elem_of_cons in Hp as [->|Hp]; [done|]).
    by apply elem_of_nil in Hp.
Qed.

(** [MissingParameterValue] is raised exactly when a required parameter is
    absent, whatever the other parameters hold: the check comes first. *)
Lemma parse_driver_info_missing_iff conf info :
  (∃ ps, parse_driver_info conf info = inl (MissingParameterValue ps))
  ↔ ¬ all_required info.
Proof.
  rewrite all_required_lookups.
  unfold parse_driver_info, REQUIRED_PROPERTIES, copy_required. simpl.
  destruct (info !! "ilo_address") as [a|] eqn:Ha;
    destruct (info !! "ilo_username") as [u|] eqn:Hu;
    destruct (info !! "ilo_password") as [pw|] eqn:Hp; simpl;
    try (split; [intros _; intros (H1 & H2 & H3);
                   first [by destruct H1|by destruct H2|by destruct H3]
                |intros _; eauto]).
  split; [|intros H; destruct H; eauto].
  intros [ps Hps].
  unfold optional_step, console_step, store_int in Hps.
  repeat (match type of Hps with
          | context [int ?v] => destruct (int v) as [[]|]
          | context [truthy ?v] => destruct (truthy v)
          | context [bool_decide ?P] => destruct (bool_decide P)
          end; simpl in Hps); discriminate Hps.
Qed.

Lemma optional_value_scalar conf info p :
  p ∈ OPTIONAL_PROPERTIES →
  (∀ v, info !! p = Some v → scalar v) →
  scalar (optional_value conf info p).
Proof.
  intros Hp Hv. unfold optional_value.
  destruct (info !! p) as [v|]; simpl; [by apply Hv|].
  unfold OPTIONAL_PROPERTIES in Hp.
  repeat (apply elem_of_cons in Hp as [->|Hp]; [by vm_compute|]).
  by apply elem_of_nil in Hp.
Qed.

(** Whenever the parser returns, the result holds every required value. *)
Lemma parse_driver_info_returns conf info d :
  parse_driver_info conf info = inr d →
  ∀ p, p ∈ REQUIRED_PROPERTIES → is_Some (info !! p) ∧ d !! p = info !! p.
Proof.
  unfold parse_driver_info, REQUIRED_PROPERTIES, copy_required. simpl.
  destruct (info !! "ilo_address") as [a|] eqn:Ha;
    destruct (info !! "ilo_username") as [u|] eqn:Hu;
    destruct (info !! "ilo_password") as [pw|] eqn:Hp; simpl; try done.
  unfold optional_step, console_step, store_int.
  intros Hd p Hin.
  assert (d !! "ilo_address" = Some a ∧ d !! "ilo_username" = Some u
          ∧ d !! "ilo_password" = Some pw) as (Hda & Hdu & Hdp).
  { repeat (match type of Hd with
            | context [int ?v] => destruct (int v) as [[]|]
            | context [truthy ?v] => destruct (truthy v)
            | context [bool_decide ?P] => destruct (bool_decide P)
            end; simpl in Hd); try discriminate Hd;
      injection Hd as <-; by rewrite !lookup_insert. }
  repeat (apply elem_of_cons in Hin as [->|Hin]; [by rewrite ?Ha, ?Hu, ?Hp|]).
  by apply elem_of_nil in Hin.
Qed.

Ltac show_offending v3 :=
  first
    [ left; left; by apply not_convertible_error
    | left; right; by apply not_convertible_error
    | right; exists v3; repeat split; try done;
      by apply not_convertible_error ].

Ltac refute_offending H :=
  let Hc := fresh "Hc" in
  destruct H as [[Hc|Hc]|(? & ? & ? & Hc)]; simplify_eq;
  first [ congruence | destruct Hc; unfold convertible; by eauto ].

Ltac settle_offending v3 :=
  split; [split|];
  [ first [ by intros [? [=]] | intros _; show_offending v3 ]
  | first [ intros _; by eauto
          | let H := fresh "H" in intros H; exfalso; refute_offending H ]
  | first [ intros _; by eauto
          | let H := fresh "H" in
            intros H; exfalso; apply H; show_offending v3 ] ].

(** On a [driver_info] whose port and timeout values are numbers or
    strings, [InvalidParameterValue] is raised exactly when one of the values
    the parser converts is not an integer, and otherwise the parser
    returns. *)
Lemma parse_driver_info_scalar conf info :
  all_required info →
  (∀ p v, p ∈ OPTIONAL_PROPERTIES ++ CONSOLE_PROPERTIES →
          info !! p = Some v → scalar v) →
  ((∃ ps, parse_driver_info conf info = inl (InvalidParameterValue ps))
   ↔ offending conf info)
  ∧ (¬ offending conf info → ∃ d, parse_driver_info conf info = inr d).
Proof.
  intros Hreq Hsc. apply all_required_lookups in Hreq as ([a Ha] & [u Hu] & [pw Hp]).
  assert (scalar (optional_value conf info "client_port")) as Hs1.
  { apply optional_value_scalar; [set_solver|]. intros v. apply Hsc. set_solver. }
  assert (scalar (optional_value conf info "client_timeout")) as Hs2.
  { apply optional_value_scalar; [set_solver|]. intros v. apply Hsc. set_solver. }
  assert (∀ v, info !! "console_port" = Some v → scalar v) as Hs3.
  { intros v. apply Hsc. set_solver. }
  unfold offending, OPTIONAL_PROPERTIES.
  unfold parse_driver_info, REQUIRED_PROPERTIES, copy_required. simpl.
  rewrite Ha, Hu, Hp. simpl.
  unfold optional_step, console_step, store_int.
  fold (optional_value conf info "client_port").
  fold (optional_value conf info "client_timeout").
  apply int_scalar in Hs1, Hs2.
  set (v1 := optional_value conf info "client_port") in *.
  set (v2 := optional_value conf info "client_timeout") in *.
  assert (∀ P : string → Prop,
            (∃ p, p ∈ ["client_port"; "client_timeout"] ∧ P p)
            ↔ P "client_port" ∨ P "client_timeout") as Hex.
  { intros P. split.
    - intros (p & Hin & HP).
      repeat (apply elem_of_cons in Hin as [->|Hin]; [by eauto|]).
      by apply elem_of_nil in Hin.
    - intros [?|?]; [exists "client_port"|exists "client_timeout"];
        (split; [|done]); [left|right; left]. }
  rewrite (Hex (λ p, ¬ convertible (optional_value conf info p))).
  fold v1 v2. clearbody v1 v2. clear Hex.
  destruct (info !! "console_port") as [v3|] eqn:H3; simpl.
  - specialize (Hs3 v3 eq_refl). apply int_scalar in Hs3.
    destruct (truthy v3) eqn:Ht;
      destruct Hs1 as [[z1 E1]|E1]; destruct Hs2 as [[z2 E2]|E2];
      destruct Hs3 as [[z3 E3]|E3];
      rewrite ?E1, ?E2, ?E3; simpl; settle_offending v3.
  - destruct Hs1 as [[z1 E1]|E1]; destruct Hs2 as [[z2 E2]|E2];
      rewrite ?E1, ?E2; simpl; settle_offending PyNone.
Qed.

(** C4.  [null_port_info] has every required parameter and a [client_port]
    of [None].  [None] is not convertible to an integer, yet the parser does
    not raise [InvalidParameterValue]: [int(None)] raises [TypeError], which
    [except ValueError] does not catch, and the [TypeError] leaves
    [parse_driver_info]. *)
Theorem parse_driver_info_null_port :
  all_required null_port_info
  ∧ null_port_info !! "client_port" = Some PyNone
  ∧ ¬ convertible PyNone
  ∧ parse_driver_info default_opts null_port_info = inl (Builtin TypeError)
  ∧ ¬ (∃ ps, parse_driver_info default_opts null_port_info
             = inl (InvalidParameterValue ps)).
Proof.
  split; [|split; [|split; [|split]]].
  - apply all_required_lookups.
    repeat split; unfold is_Some; eexists; vm_compute; reflexivity.
  - by vm_compute.
  - intros [z Hz]. discriminate Hz.
  - by vm_compute.
  - intros [ps Hps]. vm_compute in Hps. discriminate Hps.
Qed.

End IloCommonFacts.

(** ** Properties of the DRAC power interface *)

Module DracPowerFacts.
Import DracPower.

Example reboot_powered_on :
  reboot (Task "n1" false) (healthy "2")
  = (inr (), sent (RequestStateChange "11") (sent Enumerate (healthy "2"))).
Proof. by vm_compute. Qed.

Example reboot_powered_off :
  calls (reboot (Task "n1" false) (healthy "3")).2
  = [Enumerate; RequestStateChange "2"].
Proof. by vm_compute. Qed.

Example get_power_state_shared :
  get_power_state (Task "n1" true) (healthy "3")
  = (inr POWER_OFF, sent Enumerate (healthy "3")).
Proof. by vm_compute. Qed.

Lemma guarded_shared {A} (f : task → M A) t w :
  shared t = true → require_exclusive_lock f t w = (inl ExclusiveLockRequired, w).
Proof. unfold require_exclusive_lock. by intros ->. Qed.

Lemma guarded_exclusive {A} (f : task → M A) t :
  shared t = false → require_exclusive_lock f t = f t.
Proof. unfold require_exclusive_lock. by intros ->. Qed.

Lemma guarded_calls {A} (f : task → M A) t w :
  calls (require_exclusive_lock f t w).2 ≠ calls w → shared t = false.
Proof.
  destruct (shared t) eqn:Hs; [|done].
  rewrite guarded_shared by done. simpl. done.
Qed.

(** C5.  [set_power_state] and [reboot] are refused on a task whose lease is
    shared, before anything is sent to the controller; whenever either sends
    a request the task's lease is exclusive, and under an exclusive lease
    they run their bodies.  [get_power_state] carries no such guard: it
    queries the controller in the same way whether the lease is shared or
    exclusive. *)
Theorem power_ops_exclusive_lease (t : task) (w : bmc) :
  (∀ state, shared t = true →
            set_power_state t state w = (inl ExclusiveLockRequired, w))
  ∧ (shared t = true → reboot t w = (inl ExclusiveLockRequired, w))
  ∧ (∀ state, calls (set_power_state t state w).2 ≠ calls w →
              shared t = false)
  ∧ (calls (reboot t w).2 ≠ calls w → shared t = false)
  ∧ (∀ state, shared t = false →
              set_power_state t state w = _set_power_state state w)
  ∧ (shared t = false → reboot t w = reboot_body w)
  ∧ get_power_state t w = _get_power_state w
  ∧ get_power_state (Task (node_uuid t) true) w
    = get_power_state (Task (node_uuid t) false) w.
Proof.
  repeat split.
  - intros state Hs. by apply guarded_shared.
  - intros Hs. by apply guarded_shared.
  - intros state. apply guarded_calls.
  - apply guarded_calls.
  - intros state Hs. unfold set_power_state. by rewrite guarded_exclusive.
  - intros Hs. unfold reboot. by rewrite guarded_exclusive.
Qed.

Lemma power_ops_exclusive_lease_witness :
  set_power_state (Task "n1" true) POWER_OFF (healthy "2")
  = (inl ExclusiveLockRequired, healthy "2")
  ∧ set_power_state (Task "n1" false) POWER_OFF (healthy "2")
    = _set_power_state POWER_OFF (healthy "2").
Proof.
  pose proof (power_ops_exclusive_lease (Task "n1" true) (healthy "2"))
    as (H1 & _).
  pose proof (power_ops_exclusive_lease (Task "n1" false) (healthy "2"))
    as (_ & _ & _ & _ & H5 & _).
  split; [apply H1|apply H5]; reflexivity.
Defined.

Lemma get_power_state_run w text :
  credentials_ok w = true → enumerate_reply w = inr text →
  _get_power_state w
  = (match POWER_STATES !! text with Some s => inr s | None => inl KeyError end,
     sent Enumerate w).
Proof.
  intros Hc He.
  unfold _get_power_state, mbind, M_bind, bind, get_wsman_client,
    wsman_enumerate.
  rewrite Hc, He. unfold subscript. by destruct (POWER_STATES !! text).
Qed.

Lemma set_power_state_run w target requested :
  credentials_ok w = true → REVERSE_POWER_STATES target = Some requested →
  _set_power_state target w
  = (match invoke_reply w requested with None => inr () | Some e => inl e end,
     sent (RequestStateChange requested) w).
Proof.
  intros Hc Hr.
  unfold _set_power_state, mbind, M_bind, bind, get_wsman_client.
  rewrite Hc, Hr. simpl. unfold wsman_invoke.
  by destruct (invoke_reply w requested).
Qed.

(** C9.  On a node whose controller reports a known power state, [reboot]
    under an exclusive lease first enumerates the state and then sends one
    state change request: for [REBOOT] when the state read is [POWER_ON],
    for [POWER_ON] in every other case, so a powered-off node is powered
    on. *)
Theorem reboot_reads_then_requests (t : task) (w : bmc) (text : string)
    (current : power_state) :
  shared t = false →
  credentials_ok w = true →
  enumerate_reply w = inr text →
  POWER_STATES !! text = Some current →
  ∃ target requested,
    target = (if bool_decide (current = POWER_ON) then REBOOT else POWER_ON)
    ∧ REVERSE_POWER_STATES target = Some requested
    ∧ calls (reboot t w).2
      = calls w ++ [Enumerate; RequestStateChange requested]
    ∧ (reboot t w).1
      = match invoke_reply w requested with
        | None => inr ()
        | Some e => inl e
        end.
Proof.
  intros Hs Hc He Hp.
  set (target := if bool_decide (current = POWER_ON) then REBOOT else POWER_ON).
  assert (∃ requested, REVERSE_POWER_STATES target = Some requested)
    as [requested Hr].
  { unfold target. case_bool_decide; simpl; eauto. }
  exists target, requested. split; [done|]. split; [done|].
  unfold reboot. rewrite guarded_exclusive by done.
  unfold mbind, M_bind, bind.
  rewrite (get_power_state_run w text) by done. rewrite Hp.
  fold target.
  rewrite (set_power_state_run _ target requested) by done.
  simpl. by rewrite <- app_assoc.
Qed.

Lemma reboot_reads_then_requests_witness :
  ∃ target requested,
    target = POWER_ON
    ∧ REVERSE_POWER_STATES target = Some requested
    ∧ calls (reboot (Task "n1" false) (healthy "3")).2
      = [Enumerate; RequestStateChange requested]
    ∧ (reboot (Task "n1" false) (healthy "3")).1 = inr ().
Proof.
  apply (reboot_reads_then_requests (Task "n1" false) (healthy "3") "3"
           POWER_OFF); reflexivity.
Defined.

End DracPowerFacts.

(** ** Properties of the vendor passthru wrapper *)

Module PassthruFacts.
Import Passthru.

Example failing_wrapped :
  passthru_handler None failing () ()
  = (Raises (Exc VendorPassthruException
               (OfException ValueError (Text "bad address"))), (),
     ["vendor_passthru failed with method heartbeat"]).
Proof. by vm_compute. Qed.

Lemma ironic_is_exception e :
  isinstance e IronicException = true → isinstance e Exception = true.
Proof.
  unfold isinstance. generalize (exc_class e). clear e.
  intros c. induction c as [|n base IH]; simpl; [done|].
  intros H. apply orb_true_iff in H as [H|H].
  - apply bool_decide_eq_true in H. injection H as -> ->. by vm_compute.
  - apply orb_true_iff. right. by apply IH.
Qed.

(** C6 (claim as written, refuted).  A passthru method that ends with
    [KeyboardInterrupt], which is not an [IronicException], does not make
    the wrapper raise [VendorPassthruException]: the interrupt passes through
    unchanged. *)
Lemma interrupt_not_wrapped :
  passthru_handler None interrupted () ()
  = (Raises (Exc KeyboardInterrupt (Text "")), (), [])
  ∧ ¬ (∀ (func : callable unit unit unit) args s e s',
         call func args s = (Raises e, s') →
         isinstance e IronicException = false →
         ∃ e' log, passthru_handler None func args s = (Raises e', s', log)
                   ∧ exc_class e' = VendorPassthruException).
Proof.
  split; [by vm_compute|].
  intros H.
  destruct (H interrupted () () (Exc KeyboardInterrupt (Text "")) ()
              eq_refl eq_refl) as (e' & log & Heq & Hcls).
  vm_compute in Heq. injection Heq as <- <-. discriminate Hcls.
Qed.

(** C6 (amended).  For every passthru method and input: a normal return is
    handed on unchanged; an [IronicException] propagates unchanged; any other
    exception derived from [Exception] is replaced by a
    [VendorPassthruException] built from it; an exception outside
    [Exception] ([KeyboardInterrupt], [SystemExit]) propagates unchanged.
    The state the method leaves is kept in every case. *)
Theorem passthru_handler_outcomes {A S V} (method : option string)
    (func : callable A S V) (args : A) (s : S) :
  (∀ v s', call func args s = (Returns v, s') →
           passthru_handler method func args s = (Returns v, s', []))
  ∧ (∀ e s', call func args s = (Raises e, s') →
             isinstance e IronicException = true →
             passthru_handler method func args s
             = (Raises e, s', [passthru_logmessage (api_method_of method func)]))
  ∧ (∀ e s', call func args s = (Raises e, s') →
             isinstance e IronicException = false →
             isinstance e Exception = true →
             ∃ e', passthru_handler method func args s
                   = (Raises e', s',
                      [passthru_logmessage (api_method_of method func)])
                   ∧ exc_class e' = VendorPassthruException
                   ∧ exc_message e'
                     = OfException (exc_class e) (exc_message e)
                   ∧ isinstance e' IronicException = true)
  ∧ (∀ e s', call func args s = (Raises e, s') →
             isinstance e Exception = false →
             passthru_handler method func args s = (Raises e, s', [])).
Proof.
  unfold passthru_handler. repeat split.
  - intros v s' ->. done.
  - intros e s' -> ->. done.
  - intros e s' -> -> ->. eexists. repeat split.
  - intros e s' -> He.
    destruct (isinstance e IronicException) eqn:Hi.
    + apply ironic_is_exception in Hi. congruence.
    + by rewrite He.
Qed.

Lemma passthru_handler_outcomes_witness :
  ∃ e', passthru_handler None failing () ()
        = (Raises e', (), [passthru_logmessage "heartbeat"])
        ∧ exc_class e' = VendorPassthruException
        ∧ exc_message e' = OfException ValueError (Text "bad address")
        ∧ isinstance e' IronicException = true.
Proof.
  destruct (passthru_handler_outcomes None failing () ()) as (_ & _ & H3 & _).
  apply (H3 (Exc ValueError (Text "bad address")) ()); reflexivity.
Defined.

End PassthruFacts.

(** ** Properties of the driver base class *)

Module BaseDriverFacts.
Import BaseDriver.

Example base_driver_lists :
  core_interfaces = ["power"; "deploy"]
  ∧ standard_interfaces = ["console"; "management"; "inspect"].
Proof. by vm_compute. Qed.

Example minimal_driver_loads : load_driver minimal_driver = inr minimal_driver.
Proof. by vm_compute. Qed.

Example no_deploy_fails :
  load_driver (delete "deploy" minimal_driver)
  = inl (DriverLoadError ["deploy"]).
Proof. by vm_compute. Qed.

Lemma getattr_None self a :
  a ∈ core_interfaces ++ optional_interfaces →
  getattr self a = None ↔ self !! a = None.
Proof.
  intros Ha. unfold getattr. destruct (self !! a) eqn:Hs; [done|].
  split; [done|]. intros _.
  vm_compute in Ha.
  repeat (apply elem_of_cons in Ha as [->|Ha]; [by vm_compute|]).
  by apply elem_of_nil in Ha.
Qed.

Lemma load_driver_cases self :
  load_driver self
  = match getattr self "power", getattr self "deploy" with
    | Some _, Some _ => inr self
    | None, Some _ => inl (DriverLoadError ["power"])
    | Some _, None => inl (DriverLoadError ["deploy"])
    | None, None => inl (DriverLoadError ["power"; "deploy"])
    end.
Proof.
  unfold load_driver.
  change core_interfaces with ["power"; "deploy"].
  rewrite !filter_cons, filter_nil.
  destruct (getattr self "power"), (getattr self "deploy");
    repeat case_decide; try done.
Qed.

Lemma getattr_delete self a b :
  a ≠ b → getattr (delete a self) b = getattr self b.
Proof. intros Hne. unfold getattr. by rewrite lookup_delete_ne. Qed.

(** C8.  [BaseDriver] lists exactly [power] and [deploy] as core
    interfaces; every capability attribute defaults to [None]; loading a
    driver fails with [DriverLoadError] exactly when [power] or [deploy] is
    [None], and whether [console], [rescue], [management], [inspect] or
    [vendor] is [None] makes no difference to loading. *)
Theorem core_capabilities_mandatory :
  core_interfaces = ["power"; "deploy"]
  ∧ (∀ a, a ∈ core_interfaces ++ optional_interfaces →
          class_attrs base_driver !! a = Some None)
  ∧ (∀ self, (∃ missing, load_driver self = inl (DriverLoadError missing))
             ↔ getattr self "power" = None ∨ getattr self "deploy" = None)
  ∧ (∀ self, is_Some (getattr self "power") →
             is_Some (getattr self "deploy") →
             load_driver self = inr self)
  ∧ (∀ self a, a ∈ optional_interfaces →
               (∃ d, load_driver (delete a self) = inr d)
               ↔ (∃ d, load_driver self = inr d)).
Proof.
  split; [by vm_compute|]. split; [|split; [|split]].
  - intros a Ha. vm_compute in Ha.
    repeat (apply elem_of_cons in Ha as [->|Ha]; [by vm_compute|]).
    by apply elem_of_nil in Ha.
  - intros self. rewrite load_driver_cases.
    destruct (getattr self "power"), (getattr self "deploy");
      (split; [first [by intros [? [=]]|intros _; by eauto]
              |first [by intros [[=]|[=]]|intros _; by eexists]]).
  - intros self [p Hp] [d Hd]. rewrite load_driver_cases. by rewrite Hp, Hd.
  - intros self a Ha. rewrite !load_driver_cases.
    assert (a ≠ "power" ∧ a ≠ "deploy") as [H1 H2].
    { unfold optional_interfaces in Ha.
      repeat (apply elem_of_cons in Ha as [->|Ha]; [done|]).
      by apply elem_of_nil in Ha. }
    rewrite !getattr_delete by done.
    destruct (getattr self "power"), (getattr self "deploy");
      split; intros [d Hd]; try discriminate Hd; by eexists.
Qed.

Lemma core_capabilities_mandatory_witness :
  load_driver minimal_driver = inr minimal_driver
  ∧ ((∃ d, load_driver (delete "console" minimal_driver) = inr d)
     ↔ (∃ d, load_driver minimal_driver = inr d)).
Proof.
  destruct core_capabilities_mandatory as (_ & _ & _ & H4 & H5).
  split.
  - apply H4; unfold is_Some; eexists; vm_compute; reflexivity.
  - apply H5. unfold optional_interfaces. left.
Defined.

End BaseDriverFacts.

(** ** Properties of the dictionary field *)

Module FieldsFacts.
Import Py Fields.

Example dict_of_pairs :
  dict (PyList [PyTuple [PyStr "a"; PyInt 1]; PyStr "bc";
                PyTuple [PyStr "a"; PyInt 2]])
  = inr [(PyStr "a", PyInt 2); (PyStr "b", PyStr "c")].
Proof. by vm_compute. Qed.

Example dict_of_int : dict (PyInt 5) = inl TypeError.
Proof. reflexivity. Qed.

Lemma FlexibleDict_coerce_dict literal_eval v r :
  FlexibleDict_coerce literal_eval v = inr r → ∃ d, r = PyDict d.
Proof.
  unfold FlexibleDict_coerce.
  destruct (match v with PyStr s => literal_eval s | _ => inr v end)
    as [e|v']; [done|].
  destruct (dict v') as [e|d]; [done|].
  intros [= <-]. by exists d.
Qed.

(** C10.  For a nullable [FlexibleDictField]: a null value is read as the
    empty dictionary, not as [None]; a string is parsed as a Python literal
    and the result is passed to [dict]; and whatever value the field lets
    through is a dictionary. *)
Theorem flexible_dict_field_yields_dict
    (literal_eval : string → builtin_error + value) (self : field) :
  nullable self = true →
  _null literal_eval self = inr (PyDict [])
  ∧ call literal_eval self PyNone = inr (PyDict [])
  ∧ (∀ s, call literal_eval self (PyStr s)
          = match literal_eval s with
            | inl e => inl e
            | inr v => match dict v with
                       | inl e => inl e
                       | inr d => inr (PyDict d)
                       end
            end)
  ∧ (∀ v r, call literal_eval self v = inr r → ∃ d, r = PyDict d).
Proof.
  intros Hn. unfold call, coerce, _null. rewrite Hn.
  repeat split.
  intros v r. destruct v; try apply FlexibleDict_coerce_dict.
  intros [= <-]. by eexists.
Qed.

Lemma flexible_dict_field_yields_dict_witness :
  call literal_eval_braces (Field true None) PyNone = inr (PyDict [])
  ∧ call literal_eval_braces (Field true None) (PyStr "{}") = inr (PyDict []).
Proof.
  destruct (flexible_dict_field_yields_dict literal_eval_braces
              (Field true None) eq_refl) as (_ & H2 & H3 & _).
  split; [apply H2|]. rewrite H3. reflexivity.
Defined.

End FieldsFacts.

(** ** Properties of periodic driver tasks *)

Module PeriodicTaskFacts.
Import PeriodicTask.
Local Open Scope nat_scope.

Example second_tick_runs_later :
  trace (run [Tick sweep 0; Tick sweep 1; FuncReturns "sweep" 0])
  = [ Called "sweep" 0; Spawned "sweep" 0; Returned "sweep" 0;
      Started "sweep" 0;
      Called "sweep" 1; Spawned "sweep" 1; Returned "sweep" 1;
      Blocked "sweep" 1;
      Ended "sweep" 0; Started "sweep" 1 ].
Proof. by vm_compute. Qed.

Lemma called_of_app name tr1 tr2 :
  called_of name (tr1 ++ tr2) = called_of name tr1 ++ called_of name tr2.
Proof. apply omap_app. Qed.

Lemma started_of_app name tr1 tr2 :
  started_of name (tr1 ++ tr2) = started_of name tr1 ++ started_of name tr2.
Proof. apply omap_app. Qed.

Lemma sem_inv_initial name : sem_inv initial name.
Proof. unfold sem_inv. simpl. by repeat split. Qed.

(** Unfolds one transition and the two projections of the trace. *)
Ltac unfold_step :=
  unfold sem_inv, wrapper, _internal, func_returns, log in *; simpl in *.

Ltac project_trace :=
  rewrite ?called_of_app, ?started_of_app; simpl;
  unfold called_of, started_of; simpl;
  rewrite ?decide_True by done; rewrite ?decide_False by done; simpl;
  rewrite ?app_nil_r.

Lemma running_single (s : sem) tick :
  counter s + length (running s) = 1 → tick ∈ running s →
  running s = [tick] ∧ counter s = 0.
Proof.
  intros Hc Hin. destruct (running s) as [|j [|k l]]; simpl in *.
  - by apply elem_of_nil in Hin.
  - apply list_elem_of_singleton in Hin as ->. split; [done|lia].
  - lia.
Qed.

Lemma sem_inv_wrapper st t tick name :
  sem_inv st name → sem_inv (wrapper t tick st) name.
Proof.
  intros (Hc & Hp & Hw). unfold wrapper. cbv zeta.
  destruct (decide (task_name t = name)) as [Heq|Hne].
  - rewrite Heq. destruct (parallel t).
    + unfold _internal, log; simpl.
      destruct (counter (sems st name)) as [|c] eqn:Hcnt;
        unfold sem_inv; simpl; rewrite fn_lookup_insert; simpl;
        project_trace;
        fold (called_of name (trace st)) (started_of name (trace st)).
      * split; [simpl in Hc; lia|]. split; [|done].
        rewrite app_assoc. by rewrite Hp.
      * assert (waiters (sems st name) = []) as Hnil.
        { destruct (waiters (sems st name)) eqn:Hws; [done|].
          discriminate Hw. done. }
        rewrite Hnil in *. rewrite app_nil_r in *.
        split; [rewrite length_app; simpl; lia|]. split; [by rewrite Hp|done].
    + unfold log, sem_inv; simpl. project_trace.
      fold (called_of name (trace st)) (started_of name (trace st)).
      split; [done|]. split; [|done].
      rewrite <- Hp, <- !app_assoc. apply Permutation_app_head.
      apply Permutation_app_comm.
  - destruct (parallel t).
    + unfold _internal, log; simpl.
      destruct (counter (sems st (task_name t)));
        unfold sem_inv; simpl; rewrite fn_lookup_insert_ne by done;
        project_trace;
        by fold (called_of name (trace st)) (started_of name (trace st)).
    + unfold log, sem_inv; simpl. project_trace.
      by fold (called_of name (trace st)) (started_of name (trace st)).
Qed.

Lemma sem_inv_func_returns st n tick name :
  sem_inv st name → sem_inv st n → sem_inv (func_returns n tick st) name.
Proof.
  intros Hinv (Hc & Hp & Hw). unfold func_returns.
  case_bool_decide as Hin; [|done].
  destruct (running_single _ _ Hc Hin) as [Hrun Hcnt].
  rewrite Hrun. rewrite filter_cons, decide_False, filter_nil by (by intros ?).
  destruct (decide (n = name)) as [->|Hne].
  - destruct (waiters (sems st name)) as [|next ws] eqn:Hws;
      unfold sem_inv; simpl; rewrite fn_lookup_insert; simpl; project_trace;
      fold (called_of name (trace st)) (started_of name (trace st)).
    + rewrite Hcnt. split; [done|]. split; [|done].
      by rewrite app_nil_r in Hp.
    + rewrite Hcnt. split; [done|]. split; [|done].
      by rewrite <- app_assoc.
  - destruct Hinv as (Hc' & Hp' & Hw').
    destruct (waiters (sems st n)) as [|next ws];
      unfold sem_inv; simpl; rewrite fn_lookup_insert_ne by done;
      project_trace;
      by fold (called_of name (trace st)) (started_of name (trace st)).
Qed.

Lemma sem_inv_step st ev :
  (∀ name, sem_inv st name) → ∀ name, sem_inv (step st ev) name.
Proof.
  intros Hinv name. destruct ev as [t tick|n tick]; simpl.
  - by apply sem_inv_wrapper.
  - by apply sem_inv_func_returns.
Qed.

Lemma sem_inv_foldl evs st :
  (∀ name, sem_inv st name) → ∀ name, sem_inv (foldl step st evs) name.
Proof.
  revert st. induction evs as [|ev evs IH]; intros st Hinv; simpl; [done|].
  apply IH. by apply sem_inv_step.
Qed.

Lemma sem_inv_run evs name : sem_inv (run evs) name.
Proof. apply sem_inv_foldl. apply sem_inv_initial. Qed.

(** C7 (claim as written, refuted).  While the run of tick 0 of a task on
    a dedicated worker is in flight, tick 1 arrives; its run is not
    suppressed: it waits for the semaphore and starts as soon as the first
    run ends. *)
Lemma in_flight_tick_not_skipped :
  running (sems (run [Tick sweep 0]) "sweep") = [0]
  ∧ Started "sweep" 1
    ∈ trace (run [Tick sweep 0; Tick sweep 1; FuncReturns "sweep" 0])
  ∧ ¬ (∀ evs t i evs',
         parallel t = true →
         running (sems (run evs) (task_name t)) ≠ [] →
         Started (task_name t) i ∉ trace (run (evs ++ Tick t i :: evs'))).
Proof.
  assert (Started "sweep" 1
          ∈ trace (run [Tick sweep 0; Tick sweep 1; FuncReturns "sweep" 0]))
    as Hin.
  { rewrite second_tick_runs_later. set_solver. }
  split; [by vm_compute|]. split; [done|].
  intros H.
  apply (H [Tick sweep 0] sweep 1 [FuncReturns "sweep" 0]); [done| |done].
  by vm_compute.
Qed.

(** C7 (amended).  Whatever ticks and completions have happened: runs of
    one task on a dedicated worker never overlap; no tick is skipped, each
    tick called so far has started its run or waits on the task's
    semaphore, and a tick waits only while a run is in flight and starts
    when that run ends.  The wrapper of a task on a dedicated worker returns
    to the periodic loop before the run starts, so it does not hold up the
    loop; the wrapper of an inline task returns only after the run has
    ended, so the loop reaches no other task for the duration of the
    run. *)
Theorem periodic_ticks_deferred_not_skipped (evs : list event) (name : string) :
  let st := run evs in
  let s := sems st name in
  counter s + length (running s) = 1
  ∧ started_of name (trace st) ++ waiters s ≡ₚ called_of name (trace st)
  ∧ (waiters s ≠ [] → running s ≠ [])
  ∧ (∀ j i,
       running s = [j] → waiters s = [i] →
       running (sems (func_returns name j st) name) = [i]
       ∧ waiters (sems (func_returns name j st) name) = []
       ∧ trace (func_returns name j st)
         = trace st ++ [Ended name j; Started name i])
  ∧ (∀ t i,
       parallel t = true →
       ∃ a, (a = Started (task_name t) i ∨ a = Blocked (task_name t) i)
            ∧ trace (wrapper t i st)
              = trace st ++ [ Called (task_name t) i; Spawned (task_name t) i;
                              Returned (task_name t) i; a ])
  ∧ (∀ t i,
       parallel t = false →
       trace (wrapper t i st)
       = trace st ++ [ Called (task_name t) i; Started (task_name t) i;
                       Ended (task_name t) i; Returned (task_name t) i ]
       ∧ sems (wrapper t i st) = sems st).
Proof.
  intros st s. destruct (sem_inv_run evs name) as (Hc & Hp & Hw).
  fold st in Hc, Hp, Hw. fold s in Hc, Hp, Hw.
  split; [done|]. split; [done|]. split; [|split; [|split]].
  - intros Hne Hrun. specialize (Hw Hne). rewrite Hw, Hrun in Hc. done.
  - intros j i Hrun Hws. unfold func_returns. fold s.
    rewrite Hrun, Hws. rewrite bool_decide_eq_true_2 by set_solver.
    simpl. rewrite fn_lookup_insert. simpl.
    rewrite filter_cons, decide_False, filter_nil by (by intros ?).
    done.
  - intros t i Hpar. unfold wrapper, _internal, log. rewrite Hpar. simpl.
    destruct (counter (sems st (task_name t))); simpl;
      eexists; (split; [|by rewrite <- !app_assoc]); eauto.
  - intros t i Hpar. unfold wrapper, log. rewrite Hpar. simpl.
    by rewrite <- !app_assoc.
Qed.

End PeriodicTaskFacts.

(** ** Properties of the task lease manager *)

Module TaskLeaseFacts.
Import TaskLease.
Local Open Scope nat_scope.

Example w2_locked_out :
  acquire (run w1_holds_n1) "n1" true "w2" = inl NodeLocked.
Proof. by vm_compute. Qed.

Example w2_after_release :
  ∃ l st, acquire (run (w1_holds_n1 ++ [Release "n1" "w1"])) "n1" true "w2"
          = inr (l, st).
Proof. eexists _, _. by vm_compute. Qed.

Lemma leases_on_app n ls1 ls2 :
  leases_on n (ls1 ++ ls2) = leases_on n ls1 ++ leases_on n ls2.
Proof. apply filter_app. Qed.

Lemma leases_on_cleared_same (gone : string → bool) n (ls : list lease) :
  leases_on n (filter (λ l, ¬ (lease_node l = n ∧ gone (lease_holder l) = true))
                      ls)
  = filter (λ l, gone (lease_holder l) = false) (leases_on n ls).
Proof.
  unfold leases_on. induction ls as [|l ls IH]; [done|].
  rewrite !filter_cons.
  destruct (decide (lease_node l = n)) as [Hn|Hn];
    destruct (gone (lease_holder l)) eqn:Hg.
  - rewrite decide_False by tauto. rewrite filter_cons, Hg.
    rewrite decide_False by done. done.
  - rewrite decide_True by (intros [_ ?]; done).
    rewrite !filter_cons, decide_True by done. rewrite Hg.
    rewrite decide_True by done. by rewrite IH.
  - rewrite decide_True by tauto.
    rewrite filter_cons, decide_False by done. done.
  - rewrite decide_True by tauto.
    rewrite filter_cons, decide_False by done. done.
Qed.

Lemma leases_on_cleared_other (gone : string → bool) m n (ls : list lease) :
  m ≠ n →
  leases_on n (filter (λ l, ¬ (lease_node l = m ∧ gone (lease_holder l) = true))
                      ls)
  = leases_on n ls.
Proof.
  intros Hne. unfold leases_on. induction ls as [|l ls IH]; [done|].
  rewrite !filter_cons.
  destruct (decide (lease_node l = n)) as [Hn|Hn].
  - rewrite decide_True by (intros [? _]; congruence).
    rewrite filter_cons, decide_True by done. by rewrite IH.
  - destruct (decide (¬ (lease_node l = m ∧ gone (lease_holder l) = true)));
      [|done].
    rewrite filter_cons, decide_False by done. done.
Qed.

Lemma holders_filter (gone : string → bool) (ls : list lease) :
  lease_holder <$> filter (λ l, gone (lease_holder l) = false) ls
  = filter (λ h, gone h = false) (lease_holder <$> ls).
Proof.
  induction ls as [|l ls IH]; [done|].
  rewrite fmap_cons, !filter_cons.
  destruct (decide (gone (lease_holder l) = false)); [|apply IH].
  rewrite fmap_cons. f_equal. apply IH.
Qed.

Lemma lease_inv_initial n : lease_inv initial n.
Proof. unfold lease_inv, initial. simpl. by rewrite lookup_empty. Qed.

Lemma lease_inv_enroll st m n : lease_inv st n → lease_inv (enroll st m) n.
Proof.
  intros Hinv. unfold enroll.
  destruct (nodes st !! m) as [nd|] eqn:Hm; [done|].
  unfold lease_inv in *. simpl.
  destruct (decide (m = n)) as [->|Hne].
  - rewrite lookup_insert_eq. simpl. rewrite Hm in Hinv. rewrite Hinv.
    by split.
  - by rewrite lookup_insert_ne.
Qed.

Lemma lease_inv_acquire st m exclusive h l st' n :
  acquire st m exclusive h = inr (l, st') →
  lease_inv st n → lease_inv st' n.
Proof.
  unfold acquire. destruct (nodes st !! m) as [nd|] eqn:Hm; [|done].
  intros Hacq Hinv. unfold lease_inv in *.
  destruct (decide (m = n)) as [->|Hne].
  - rewrite Hm in Hinv.
    destruct exclusive.
    + destruct (reservation nd) eqn:Hr; [done|].
      destruct (shared_holders nd) eqn:Hs; [|done].
      injection Hacq as <- <-. simpl.
      rewrite lookup_insert_eq. simpl. split; [done|].
      destruct Hinv as [_ Hperm]. apply Permutation_nil_r in Hperm.
      apply fmap_nil_inv in Hperm.
      rewrite leases_on_app, Hperm. simpl.
      exists (now st). unfold leases_on.
      by rewrite filter_cons, decide_True, filter_nil by done.
    + destruct (reservation nd) eqn:Hr; [done|].
      injection Hacq as <- <-. simpl.
      rewrite lookup_insert_eq. simpl.
      destruct Hinv as [Hall Hperm].
      rewrite leases_on_app. unfold leases_on at 2 4.
      rewrite filter_cons, decide_True, filter_nil by done.
      split.
      * apply Forall_app. split; [done|]. by constructor.
      * rewrite fmap_app. simpl. by rewrite Hperm.
  - assert (nodes st' !! n = nodes st !! n
            ∧ leases_on n (leases st') = leases_on n (leases st)) as [-> ->].
    { destruct exclusive.
      - destruct (reservation nd); [done|].
        destruct (shared_holders nd); [|done].
        injection Hacq as <- <-. simpl. rewrite lookup_insert_ne by done.
        split; [done|]. rewrite leases_on_app. unfold leases_on at 2.
        rewrite filter_cons, decide_False, filter_nil by done.
        by rewrite app_nil_r.
      - destruct (reservation nd); [done|].
        injection Hacq as <- <-. simpl. rewrite lookup_insert_ne by done.
        split; [done|]. rewrite leases_on_app. unfold leases_on at 2.
        rewrite filter_cons, decide_False, filter_nil by done.
        by rewrite app_nil_r. }
    done.
Qed.

Lemma lease_inv_clear gone m st n :
  lease_inv st n → lease_inv (clear gone m st) n.
Proof.
  intros Hinv. unfold clear.
  destruct (nodes st !! m) as [nd|] eqn:Hm; [|done].
  unfold lease_inv in *. simpl.
  destruct (decide (m = n)) as [->|Hne].
  - rewrite lookup_insert_eq. rewrite Hm in Hinv.
    rewrite leases_on_cleared_same. unfold drop_holders. simpl.
    destruct (reservation nd) as [h|] eqn:Hr.
    + destruct Hinv as [Hs [t Hl]]. rewrite Hs, Hl.
      rewrite filter_cons, !filter_nil. simpl.
      destruct (gone h) eqn:Hg.
      * rewrite decide_False by done. split; [constructor|done].
      * rewrite decide_True by done. split; [done|]. by exists t.
    + destruct Hinv as [Hall Hperm]. split.
      * apply Forall_forall. intros l [_ Hl]%list_elem_of_filter.
        rewrite Forall_forall in Hall. by apply Hall.
      * rewrite holders_filter. by rewrite Hperm.
  - rewrite lookup_insert_ne by done.
    by rewrite leases_on_cleared_other.
Qed.

Lemma lease_inv_step st ev n :
  lease_inv st n → lease_inv (step st ev) n.
Proof.
  intros Hinv. destruct ev as [m|m e h|m h|h|h|m]; simpl.
  - by apply lease_inv_enroll.
  - destruct (acquire st m e h) as [?|[l st']] eqn:Hacq; [done|].
    by eapply lease_inv_acquire.
  - by apply lease_inv_clear.
  - done.
  - done.
  - by apply lease_inv_clear.
Qed.

Lemma lease_inv_run evs n : lease_inv (run evs) n.
Proof.
  unfold run. generalize (lease_inv_initial n). generalize initial.
  induction evs as [|ev evs IH]; intros st Hinv; simpl; [done|].
  apply IH. by apply lease_inv_step.
Qed.

Lemma elem_of_leases_on n l ls :
  l ∈ leases_on n ls ↔ l ∈ ls ∧ lease_node l = n.
Proof. unfold leases_on. rewrite list_elem_of_filter. tauto. Qed.

Lemma exclusive_leases_on n (ls : list lease) :
  filter (λ l, lease_node l = n ∧ lease_exclusive l = true) ls
  = filter (λ l, lease_exclusive l = true) (leases_on n ls).
Proof.
  unfold leases_on. rewrite list_filter_filter.
  apply list_filter_iff. intros l. tauto.
Qed.

Lemma acquire_exclusive_locked st n h nd :
  nodes st !! n = Some nd →
  is_Some (reservation nd) ∨ shared_holders nd ≠ [] →
  acquire st n true h = inl NodeLocked.
Proof.
  intros Hn Hheld. unfold acquire. rewrite Hn.
  destruct (reservation nd) as [h'|]; [done|].
  destruct (shared_holders nd); [|done].
  destruct Hheld as [[? [=]]|?]; done.
Qed.

(** C1.  In every state the lease manager can reach, a node has at most one
    exclusive lease in force, and an exclusive lease is the only lease on
    its node; an exclusive acquisition on a node with a lease in force whose
    holder is alive (a lease not yet reclaimable) fails with [NodeLocked];
    and of two exclusive acquisitions on one node with nothing released in
    between, the second fails with [NodeLocked]. *)
Theorem exclusive_lease_unique (evs : list event) (n : string) :
  let st := run evs in
  length (filter (λ l, lease_node l = n ∧ lease_exclusive l = true)
                 (leases st)) ≤ 1
  ∧ (∀ l1 l2, l1 ∈ leases st → l2 ∈ leases st →
              lease_node l1 = n → lease_node l2 = n →
              lease_exclusive l1 = true → l2 = l1)
  ∧ (∀ l h, l ∈ leases st → lease_node l = n →
            is_alive st (lease_holder l) = true →
            acquire st n true h = inl NodeLocked)
  ∧ (∀ h1 h2 l st1, acquire st n true h1 = inr (l, st1) →
                    acquire st1 n true h2 = inl NodeLocked).
Proof.
  intros st. pose proof (lease_inv_run evs n) as Hinv. fold st in Hinv.
  unfold lease_inv in Hinv.
  split; [|split; [|split]].
  - rewrite exclusive_leases_on.
    destruct (nodes st !! n) as [nd|]; [|rewrite Hinv; simpl; lia].
    destruct (reservation nd) as [h|].
    + destruct Hinv as [_ [t ->]].
      rewrite filter_cons, filter_nil. case_decide; simpl; lia.
    + destruct Hinv as [Hall _].
      induction Hall as [|l ls Hl _ IH]; [simpl; lia|].
      rewrite filter_cons, decide_False by congruence. done.
  - intros l1 l2 H1 H2 Hn1 Hn2 Hex.
    assert (l1 ∈ leases_on n (leases st)) as Hin1
      by (by apply elem_of_leases_on).
    assert (l2 ∈ leases_on n (leases st)) as Hin2
      by (by apply elem_of_leases_on).
    destruct (nodes st !! n) as [nd|].
    + destruct (reservation nd) as [h|].
      * destruct Hinv as [_ [t Hl]]. rewrite Hl in Hin1, Hin2.
        apply list_elem_of_singleton in Hin1, Hin2. congruence.
      * destruct Hinv as [Hall _]. rewrite Forall_forall in Hall.
        specialize (Hall l1 Hin1). congruence.
    + rewrite Hinv in Hin1. by apply elem_of_nil in Hin1.
  - intros l h Hl Hn _.
    assert (l ∈ leases_on n (leases st)) as Hin
      by (by apply elem_of_leases_on).
    destruct (nodes st !! n) as [nd|] eqn:Hnd.
    + apply (acquire_exclusive_locked st n h nd Hnd).
      destruct (reservation nd) as [h'|]; [left; by eexists|right].
      destruct Hinv as [_ Hperm]. intros Hnil. rewrite Hnil in Hperm.
      apply Permutation_nil_r, fmap_nil_inv in Hperm.
      rewrite Hperm in Hin. by apply elem_of_nil in Hin.
    + rewrite Hinv in Hin. by apply elem_of_nil in Hin.
  - intros h1 h2 l st1 Hacq. unfold acquire in Hacq.
    destruct (nodes st !! n) as [nd|]; [|done].
    destruct (reservation nd); [done|].
    destruct (shared_holders nd); [|done].
    injection Hacq as <- <-.
    eapply acquire_exclusive_locked; simpl.
    + apply lookup_insert_eq.
    + left. by eexists.
Qed.

Lemma exclusive_lease_unique_witness :
  Lease "n1" "w1" 1 true ∈ leases (run w1_holds_n1)
  ∧ is_alive (run w1_holds_n1) "w1" = true
  ∧ acquire (run w1_holds_n1) "n1" true "w2" = inl NodeLocked.
Proof.
  assert (Lease "n1" "w1" 1 true ∈ leases (run w1_holds_n1)) as Hin.
  { apply list_elem_of_In. vm_compute. by left. }
  split; [done|]. split; [by vm_compute|].
  destruct (exclusive_lease_unique w1_holds_n1 "n1") as (_ & _ & H3 & _).
  apply (H3 (Lease "n1" "w1" 1 true) "w2" Hin); [reflexivity|by vm_compute].
Defined.

End TaskLeaseFacts.

(** ** Further properties of the driver base class *)

Module BaseDriverMore.
Import BaseDriver.

(** What one capability contributes to the properties of the driver. *)
Lemma get_properties_unions (self : driver) :
  let props a := match getattr self a with
                 | Some i => iface_properties i
                 | None => ∅
                 end in
  get_properties self
  = props "vendor" ∪ (props "inspect" ∪ (props "management" ∪
      (props "console" ∪ (props "deploy" ∪ (props "power" ∪ ∅))))).
Proof.
  intros props. unfold get_properties.
  change (core_interfaces ++ standard_interfaces ++ ["vendor"])
    with ["power"; "deploy"; "console"; "management"; "inspect"; "vendor"].
  simpl. unfold props.
  repeat match goal with
         | |- context [getattr self ?a] => destruct (getattr self a)
         end; by rewrite ?(left_id_L ∅ (∪)).
Qed.

(** X1.  [BaseDriver.get_properties] collects the properties of the power,
    deploy, console, management, inspect and vendor capabilities and of
    nothing else: a capability that is [None] contributes nothing, the
    rescue capability is never consulted, a property name is in the result
    exactly when one of the six capabilities has it, and on a name that
    several capabilities share the vendor capability wins. *)
Theorem get_properties_of_capabilities (self : driver) :
  (∀ r, get_properties (<["rescue" := r]> self) = get_properties self)
  ∧ (∀ k, is_Some (get_properties self !! k)
          ↔ ∃ a i, a ∈ core_interfaces ++ standard_interfaces ++ ["vendor"]
                   ∧ getattr self a = Some i
                   ∧ is_Some (iface_properties i !! k))
  ∧ (∀ i k v, getattr self "vendor" = Some i →
              iface_properties i !! k = Some v →
              get_properties self !! k = Some v).
Proof.
  split; [|split].
  - intros r. rewrite !get_properties_unions. cbv zeta.
    unfold getattr. by rewrite !lookup_insert_ne.
  - intros k. rewrite get_properties_unions. cbv zeta.
    change (core_interfaces ++ standard_interfaces ++ ["vendor"])
      with ["power"; "deploy"; "console"; "management"; "inspect"; "vendor"].
    rewrite !lookup_union_is_Some, lookup_empty. split.
    + intros H.
      repeat (destruct H as [H|H];
              [match type of H with
               | context [getattr self ?a] =>
                   destruct (getattr self a) as [i|] eqn:Ha;
                   [exists a, i; split; [set_solver|done]
                   |rewrite lookup_empty in H; by destruct H]
               end|]).
      by destruct H.
    + intros (a & i & Ha & Hi & Hk).
      repeat (apply elem_of_cons in Ha as [->|Ha];
              [rewrite Hi; tauto|]).
      by apply elem_of_nil in Ha.
  - intros i k v Hi Hk. rewrite get_properties_unions. cbv zeta.
    rewrite Hi. by apply lookup_union_Some_l.
Qed.

Lemma get_properties_of_capabilities_witness :
  get_properties
    (<["vendor" := Iface {["port" := "vendor port"]}]>
       (<["power" := Iface {["port" := "power port"]}]> ∅))
  !! "port" = Some "vendor port".
Proof.
  destruct (get_properties_of_capabilities
              (<["vendor" := Iface {["port" := "vendor port"]}]>
                 (<["power" := Iface {["port" := "power port"]}]> ∅)))
    as (_ & _ & H).
  apply (H (Iface {["port" := "vendor port"]})); reflexivity.
Defined.

End BaseDriverMore.

(** ** Running discovered clean steps *)

Module CleanStepExecFacts.
Import CleanSteps CleanStepExec.

(** A tagged function bound under another name is discovered under its own
    name, which is not an attribute: executing the step fails. *)
Example renamed_step_not_found :
  get_clean_steps (new renamed_step) ()
  = [ {| step := "wipe"; priority := 5; interface := "management" |} ]
  ∧ execute_clean_step (new renamed_step)
      {| step := "wipe"; priority := 5; interface := "management" |}
    = inl (AttributeError "wipe").
Proof. split; by vm_compute. Qed.

(** X2.  On an interface whose methods are bound under their own names,
    every step that [get_clean_steps] lists can be executed:
    [execute_clean_step] finds an attribute of that name, it is a method,
    and it is the one tagged with the priority the step carries.  A step
    naming no attribute ends in [AttributeError]. *)
Theorem discovered_steps_execute (cls : class) :
  def_names cls →
  (∀ e (task : unit), e ∈ get_clean_steps (new cls) task →
     ∃ f, execute_clean_step (new cls) e = inr (Method f)
          ∧ __name__ f = step e
          ∧ _clean_step_priority f = Some (priority e))
  ∧ (∀ e, attributes cls !! step e = None →
          execute_clean_step (new cls) e = inl (AttributeError (step e))).
Proof.
  intros Hdef. split.
  - intros e task He. unfold get_clean_steps in He.
    rewrite CleanStepsFacts.clean_steps_new in He.
    apply list_elem_of_omap in He as ([n m] & Hin & He).
    apply CleanStepsFacts.elem_of_getmembers in Hin as [Hn _].
    apply CleanStepsFacts.step_of_Some in He as (f & Hm & Hp & Hs & _).
    simpl in Hm. subst m. exists f.
    unfold execute_clean_step. simpl.
    rewrite Hs, (Hdef _ _ Hn), Hn. done.
  - intros e He. unfold execute_clean_step. simpl. by rewrite He.
Qed.

Lemma discovered_steps_execute_witness :
  ∃ f, execute_clean_step (new two_erasers)
         {| step := "erase_a"; priority := 10; interface := "deploy" |}
       = inr (Method f)
       ∧ __name__ f = "erase_a"
       ∧ _clean_step_priority f = Some 10.
Proof.
  destruct (discovered_steps_execute two_erasers
              CleanStepsFacts.two_erasers_def_names) as [H _].
  apply (H {| step := "erase_a"; priority := 10; interface := "deploy" |} ()).
  apply list_elem_of_In. vm_compute. by left.
Defined.

End CleanStepExecFacts.

(** ** Further properties of the DRAC power interface *)

Module DracPowerMore.
Import DracPower DracPowerCases.

(** X3.  [POWER_STATES] and [REVERSE_POWER_STATES] are inverse to each
    other: a controller code stands for a power state exactly when that
    state is sent as this code.  The states the controller can report are
    [POWER_ON], [POWER_OFF] and [REBOOT], and no others. *)
Theorem power_state_tables_inverse (text : string) (s : power_state) :
  (POWER_STATES !! text = Some s ↔ REVERSE_POWER_STATES s = Some text)
  ∧ (POWER_STATES !! text = Some s →
     s = POWER_ON ∨ s = POWER_OFF ∨ s = REBOOT).
Proof.
  assert (POWER_STATES !! text = Some s ↔ REVERSE_POWER_STATES s = Some text)
    as Hiff.
  { unfold POWER_STATES. rewrite !lookup_insert, lookup_empty.
    split.
    - repeat case_decide; subst; intros [= <-]; done.
    - destruct s; simpl; intros [= <-]; done. }
  split; [done|].
  intros H. apply Hiff in H. destruct s; simpl in H; try done; tauto.
Qed.

Lemma run_bind {A B} (m : M A) (k : A → M B) w :
  (m ≫= k) w = match m w with
               | (inr a, w') => k a w'
               | (inl e, w') => (inl e, w')
               end.
Proof. reflexivity. Qed.

Lemma get_power_state_calls w :
  calls (_get_power_state w).2
  = if credentials_ok w then calls w ++ [Enumerate] else calls w.
Proof.
  unfold _get_power_state. rewrite run_bind. unfold get_wsman_client.
  destruct (credentials_ok w); [|done].
  rewrite run_bind. unfold wsman_enumerate.
  destruct (enumerate_reply w) as [e|text]; [done|].
  unfold subscript. by destruct (POWER_STATES !! text).
Qed.

(** X4.  [get_power_state] only reads: it sends the controller at most one
    request, an enumeration, and never a state change; without usable
    credentials it sends nothing.  The state it returns is the one
    [POWER_STATES] gives for the reported [EnabledState], so one of
    [POWER_ON], [POWER_OFF], [REBOOT]; any other report is a [KeyError]. *)
Theorem get_power_state_reads_only (t : task) (w : bmc) :
  (calls (get_power_state t w).2 = calls w
   ∨ calls (get_power_state t w).2 = calls w ++ [Enumerate])
  ∧ (credentials_ok w = false →
     get_power_state t w = (inl InvalidParameterValue, w))
  ∧ (∀ s, (get_power_state t w).1 = inr s →
          ∃ text, enumerate_reply w = inr text
                  ∧ POWER_STATES !! text = Some s
                  ∧ (s = POWER_ON ∨ s = POWER_OFF ∨ s = REBOOT))
  ∧ (∀ text, credentials_ok w = true → enumerate_reply w = inr text →
             POWER_STATES !! text = None →
             (get_power_state t w).1 = inl KeyError).
Proof.
  unfold get_power_state. split; [|split; [|split]].
  - rewrite get_power_state_calls. destruct (credentials_ok w); auto.
  - intros Hc. unfold _get_power_state. rewrite run_bind.
    unfold get_wsman_client. by rewrite Hc.
  - intros s. unfold _get_power_state. rewrite run_bind.
    unfold get_wsman_client. destruct (credentials_ok w); [|done].
    rewrite run_bind. unfold wsman_enumerate.
    destruct (enumerate_reply w) as [e|text]; [done|].
    unfold subscript. destruct (POWER_STATES !! text) as [s'|] eqn:Hs; [|done].
    simpl. intros [= <-]. exists text. split; [done|]. split; [done|].
    by apply (power_state_tables_inverse text s').
  - intros text Hc He Hs. rewrite (DracPowerFacts.get_power_state_run w text)
      by done. by rewrite Hs.
Qed.

Lemma get_power_state_reads_only_witness :
  get_power_state (Task "n1" true) no_credentials
  = (inl InvalidParameterValue, no_credentials).
Proof.
  destruct (get_power_state_reads_only (Task "n1" true) no_credentials)
    as (_ & H & _).
  apply H. reflexivity.
Defined.

Lemma set_power_state_calls target w :
  calls (_set_power_state target w).2
  = match REVERSE_POWER_STATES target with
    | Some code =>
        if credentials_ok w then calls w ++ [RequestStateChange code]
        else calls w
    | None => calls w
    end
  ∧ (REVERSE_POWER_STATES target = None →
     ∃ e, (_set_power_state target w).1 = inl e).
Proof.
  unfold _set_power_state. rewrite run_bind. unfold get_wsman_client.
  destruct (credentials_ok w).
  - rewrite run_bind.
    destruct (REVERSE_POWER_STATES target) as [code|]; simpl.
    + unfold wsman_invoke. split; [|done].
      by destruct (invoke_reply w code).
    + split; [done|]. intros _. by eexists.
  - split; [by destruct (REVERSE_POWER_STATES target)|].
    intros _. by eexists.
Qed.

(** X5.  [set_power_state] sends the controller at most one request, the
    state change coded by [REVERSE_POWER_STATES] for the target.  For a
    target without a code ([ERROR], [NOSTATE]) the call ends in an exception
    and nothing is sent. *)
Theorem set_power_state_one_request (t : task) (target : power_state)
    (w : bmc) :
  (calls (set_power_state t target w).2 = calls w
   ∨ ∃ code, REVERSE_POWER_STATES target = Some code
             ∧ calls (set_power_state t target w).2
               = calls w ++ [RequestStateChange code])
  ∧ (REVERSE_POWER_STATES target = None →
     calls (set_power_state t target w).2 = calls w
     ∧ ∃ e, (set_power_state t target w).1 = inl e).
Proof.
  unfold set_power_state, require_exclusive_lock.
  destruct (set_power_state_calls target w) as [Hc He].
  destruct (shared t).
  - split; [by left|]. intros _. split; [done|]. by eexists.
  - split.
    + rewrite Hc. destruct (REVERSE_POWER_STATES target) as [code|];
        [|by left].
      destruct (credentials_ok w); [right; by exists code|by left].
    + intros Hn. split; [|by apply He]. by rewrite Hc, Hn.
Qed.

Lemma set_power_state_one_request_witness :
  calls (set_power_state (Task "n1" false) ERROR (healthy "2")).2 = []
  ∧ ∃ e, (set_power_state (Task "n1" false) ERROR (healthy "2")).1 = inl e.
Proof.
  destruct (set_power_state_one_request (Task "n1" false) ERROR (healthy "2"))
    as [_ H].
  apply H. reflexivity.
Defined.

(** X6.  [reboot] never asks the controller to power the node off: whatever
    the controller answers, the requests it sends are a prefix of an
    enumeration followed by one state change, and the state change is for
    [REBOOT] or [POWER_ON].  When reading the power state fails, no state
    change is requested and the error of the read is the result. *)
Theorem reboot_never_powers_off (t : task) (w : bmc) :
  (∃ sent_, calls (reboot t w).2 = calls w ++ sent_
            ∧ (sent_ = [] ∨ sent_ = [Enumerate]
               ∨ sent_ = [Enumerate; RequestStateChange "11"]
               ∨ sent_ = [Enumerate; RequestStateChange "2"]))
  ∧ (∀ e, shared t = false → (_get_power_state w).1 = inl e →
          reboot t w = (inl e, (_get_power_state w).2)
          ∧ (∀ code, RequestStateChange code ∈ calls (reboot t w).2 →
                     RequestStateChange code ∈ calls w)).
Proof.
  split.
  - unfold reboot, require_exclusive_lock.
    destruct (shared t); [exists []; split; [by rewrite app_nil_r|by left]|].
    rewrite run_bind.
    pose proof (get_power_state_calls w) as Hg.
    destruct (_get_power_state w) as [[e|s] w'] eqn:Hget; simpl in Hg.
    + simpl. destruct (credentials_ok w);
        [exists [Enumerate]|exists []; rewrite app_nil_r]; split; auto.
    + destruct (credentials_ok w) eqn:Hcred.
      * assert (credentials_ok w' = true) as Hcred'.
        { revert Hget. unfold _get_power_state. rewrite run_bind.
          unfold get_wsman_client. rewrite Hcred. rewrite run_bind.
          unfold wsman_enumerate.
          destruct (enumerate_reply w); [by intros [=]|].
          unfold subscript. destruct (POWER_STATES !! _); [|by intros [=]].
          by intros [= _ <-]. }
        destruct (set_power_state_calls
                    (if bool_decide (s = POWER_ON) then REBOOT else POWER_ON)
                    w') as [Hc _].
        rewrite Hc, Hcred', Hg.
        case_bool_decide; simpl; eexists; rewrite <- app_assoc;
          (split; [reflexivity|]); simpl; auto.
      * exfalso. revert Hget. unfold _get_power_state. rewrite run_bind.
        unfold get_wsman_client. by rewrite Hcred.
  - intros e Hs He. unfold reboot, require_exclusive_lock. rewrite Hs.
    rewrite !run_bind.
    pose proof (get_power_state_calls w) as Hg.
    destruct (_get_power_state w) as [[e'|s] w'] eqn:Hget; simpl in *;
      [|done].
    injection He as ->. split; [done|].
    intros code. rewrite Hg. destruct (credentials_ok w); [|done].
    rewrite elem_of_app, list_elem_of_singleton. intros [?|[=]]; done.
Qed.

Lemma reboot_never_powers_off_witness :
  reboot (Task "n1" false) unreachable
  = (inl DracClientError, (_get_power_state unreachable).2)
  ∧ (∀ code,
       RequestStateChange code ∈ calls (reboot (Task "n1" false) unreachable).2 →
       RequestStateChange code ∈ calls unreachable).
Proof.
  destruct (reboot_never_powers_off (Task "n1" false) unreachable) as [_ H].
  apply (H DracClientError); reflexivity.
Defined.

End DracPowerMore.

(** ** Further properties of the iLO driver-info parser *)

Module IloCommonMore.
Import Py IloCommon.

(** The names [MissingParameterValue] carries, in the order of the
    model's list of required parameters. *)
Lemma missing_parameters_list conf (info : gmap string value) ps :
  parse_driver_info conf info = inl (MissingParameterValue ps)
  ↔ ps = filter (λ p, info !! p = None) REQUIRED_PROPERTIES ∧ ps ≠ [].
Proof.
  unfold parse_driver_info, REQUIRED_PROPERTIES, copy_required. simpl.
  rewrite !filter_cons, filter_nil.
  destruct (info !! "ilo_address") as [a|] eqn:Ha;
    destruct (info !! "ilo_username") as [u|] eqn:Hu;
    destruct (info !! "ilo_password") as [pw|] eqn:Hp; simpl;
    repeat case_decide; try done;
    try (split; [by intros [= <-]|by intros [-> _]]).
  split; [|by intros [-> ?]].
  unfold optional_step, console_step, store_int. intros Hps.
  repeat (match type of Hps with
          | context [int ?v] => destruct (int v) as [[]|]
          | context [truthy ?v] => destruct (truthy v)
          | context [bool_decide ?P] => destruct (bool_decide P)
          end; simpl in Hps); discriminate Hps.
Qed.

(** X7.  [parse_driver_info] raises [MissingParameterValue] exactly when a
    required parameter is absent from [driver_info], whatever the other
    parameters hold, and the exception then names the absent required
    parameters, each once, and nothing else. *)
Theorem missing_parameters_reported conf (info : gmap string value) :
  ((∃ ps, parse_driver_info conf info = inl (MissingParameterValue ps))
   ↔ ∃ p, p ∈ REQUIRED_PROPERTIES ∧ info !! p = None)
  ∧ (∀ ps, parse_driver_info conf info = inl (MissingParameterValue ps) →
           NoDup ps
           ∧ ∀ p, p ∈ ps ↔ p ∈ REQUIRED_PROPERTIES ∧ info !! p = None).
Proof.
  assert (NoDup REQUIRED_PROPERTIES) as Hnd.
  { unfold REQUIRED_PROPERTIES.
    apply (bool_decide_unpack _). by vm_compute. }
  split.
  - split.
    + intros [ps [-> Hne]%missing_parameters_list].
      destruct (filter _ REQUIRED_PROPERTIES) as [|p l] eqn:Hf; [done|].
      exists p.
      assert (p ∈ filter (λ p, info !! p = None) REQUIRED_PROPERTIES) as Hin
        by (rewrite Hf; by left).
      apply list_elem_of_filter in Hin. tauto.
    + intros (p & Hp & Hnone). eexists. apply missing_parameters_list.
      split; [done|]. intros Hnil.
      assert (p ∈ filter (λ p, info !! p = None) REQUIRED_PROPERTIES) as Hin
        by (by apply list_elem_of_filter).
      rewrite Hnil in Hin. by apply elem_of_nil in Hin.
  - intros ps [-> _]%missing_parameters_list. split.
    + by apply NoDup_filter.
    + intros p. rewrite list_elem_of_filter. tauto.
Qed.

(** X8.  Whenever [parse_driver_info] returns, the result holds every
    required parameter with the value [driver_info] gives it, holds
    [client_port] and [client_timeout] as integers (converted from
    [driver_info], or else taken from the configuration), holds
    [console_port] exactly when [driver_info] supplies a true value for it,
    then converted to an integer, and holds no other key. *)
Theorem parsed_info_shape conf (info d : gmap string value) :
  parse_driver_info conf info = inr d →
  (∀ p, p ∈ REQUIRED_PROPERTIES → is_Some (info !! p) ∧ d !! p = info !! p)
  ∧ (∀ p, p ∈ OPTIONAL_PROPERTIES →
          ∃ z, d !! p = Some (PyInt z)
               ∧ int (optional_value conf info p) = inr z)
  ∧ (∀ v, info !! "console_port" = Some v → truthy v = true →
          ∃ z, d !! "console_port" = Some (PyInt z) ∧ int v = inr z)
  ∧ ((∀ v, info !! "console_port" = Some v → truthy v = false) →
     d !! "console_port" = None)
  ∧ (∀ k, is_Some (d !! k) →
          k ∈ REQUIRED_PROPERTIES ++ OPTIONAL_PROPERTIES ++ CONSOLE_PROPERTIES).
Proof.
  intros Hd.
  split; [apply (IloCommonFacts.parse_driver_info_returns conf info d Hd)|].
  revert Hd.
  unfold parse_driver_info, REQUIRED_PROPERTIES, OPTIONAL_PROPERTIES,
    CONSOLE_PROPERTIES, copy_required. simpl.
  destruct (info !! "ilo_address") as [a|] eqn:Ha;
    destruct (info !! "ilo_username") as [u|] eqn:Hu;
    destruct (info !! "ilo_password") as [pw|] eqn:Hp; simpl; try done.
  unfold optional_step, console_step, store_int.
  fold (optional_value conf info "client_port").
  fold (optional_value conf info "client_timeout").
  destruct (info !! "console_port") as [v3|] eqn:H3; simpl;
    repeat (match goal with
            | |- context [int ?v] => destruct (int v) as [[]|?] eqn:?
            | |- context [truthy ?v] => destruct (truthy v) eqn:?
            end; simpl);
    intros Hd; try discriminate Hd; injection Hd as <-;
    (split; [|split; [|split]]).
  all: try (intros p Hin;
            repeat (apply elem_of_cons in Hin as [->|Hin];
                    [eexists; split; [by rewrite !lookup_insert|done]|]);
            by apply elem_of_nil in Hin).
  all: try (intros v Hv Hv'; simplify_eq;
            first [congruence
                  |eexists; split; [by rewrite !lookup_insert|done]]).
  all: try (intros Hf;
            first [by rewrite !lookup_insert
                  |specialize (Hf _ eq_refl); congruence]).
  all: intros k; rewrite !lookup_insert, lookup_empty;
    repeat case_decide; subst; intros Hk;
    first [by destruct Hk as [? [=]]|set_solver].
Qed.

Lemma parsed_info_shape_witness :
  ∃ d z, parse_driver_info default_opts good_info = inr d
         ∧ d !! "client_timeout" = Some (PyInt z)
         ∧ int (optional_value default_opts good_info "client_timeout")
           = inr z.
Proof.
  eexists.
  destruct (parsed_info_shape default_opts good_info _
              IloCommonFacts.parse_good_info) as (_ & H & _).
  destruct (H "client_timeout") as (z & Hz & Hi).
  { unfold OPTIONAL_PROPERTIES. right. left. }
  exists z. split; [apply IloCommonFacts.parse_good_info|]. by split.
Defined.

End IloCommonMore.

(** ** Properties of the iLO operations *)

Module IloOpsFacts.
Import Py IloCommon IloOps.

Example tables_inverse :
  BOOT_MODE_ILO_TO_GENERIC = <["legacy" := "bios"]> (<["uefi" := "uefi"]> ∅).
Proof. by vm_compute. Qed.

Example license_of_good_node :
  (get_ilo_license uefi_env good_node []).1 = inr ADVANCED_LICENSE.
Proof. by vm_compute. Qed.

Example update_boot_mode_unknown :
  (update_boot_mode uefi_env None good_node []).2
  = [ NewClient (PyStr "10.0.0.5") (PyStr "admin") (PyStr "secret")
                (PyInt 60) (PyInt 8443);
      GetPendingBootMode; SetPendingBootMode "UEFI"; NodeSave ].
Proof. by vm_compute. Qed.

Lemma ilo_bind {A B} (m : M A) (k : A → M B) log :
  (m ≫= k) log = match m log with
                 | (inr a, log') => k a log'
                 | (inl e, log') => (inl e, log')
                 end.
Proof. reflexivity. Qed.

(** Membership in a list that is written out. *)
Ltac in_list :=
  unfold REQUIRED_PROPERTIES, OPTIONAL_PROPERTIES, CONSOLE_PROPERTIES;
  repeat first [by left | right].

Lemma subscript_Some {A} (d : gmap string A) key a :
  d !! key = Some a → subscript d key = ret a.
Proof. unfold subscript. by intros ->. Qed.

(** X9.  [get_ilo_object] builds a client exactly when the driver
    information parses: a parse error is handed on with nothing sent, and
    otherwise one client is built from the address, user name and password
    as [driver_info] gives them and from the timeout and the port as
    integers, in this order; no subscript of the parsed information fails. *)
Theorem ilo_object_from_parsed_info (E : env) (n : node) (log : list call) :
  (∀ e, parse_driver_info (conf E) (driver_info n) = inl e →
        get_ilo_object E n log = (inl (Parse e), log))
  ∧ (∀ d, parse_driver_info (conf E) (driver_info n) = inr d →
          ∃ a u pw t pt,
            driver_info n !! "ilo_address" = Some a
            ∧ driver_info n !! "ilo_username" = Some u
            ∧ driver_info n !! "ilo_password" = Some pw
            ∧ int (optional_value (conf E) (driver_info n) "client_timeout")
              = inr t
            ∧ int (optional_value (conf E) (driver_info n) "client_port")
              = inr pt
            ∧ get_ilo_object E n log
              = (inr (), log ++ [NewClient a u pw (PyInt t) (PyInt pt)])).
Proof.
  unfold get_ilo_object. split.
  - by intros e ->.
  - intros d Hd. rewrite Hd.
    destruct (IloCommonMore.parsed_info_shape _ _ _ Hd) as (Hreq & Hopt & _).
    destruct (Hreq "ilo_address") as [[a Ha] Hda]; [in_list|].
    destruct (Hreq "ilo_username") as [[u Hu] Hdu]; [in_list|].
    destruct (Hreq "ilo_password") as [[pw Hp] Hdp]; [in_list|].
    destruct (Hopt "client_timeout") as (t & Hdt & Ht); [in_list|].
    destruct (Hopt "client_port") as (pt & Hdpt & Hpt); [in_list|].
    exists a, u, pw, t, pt. repeat (split; [done|]).
    rewrite Ha in Hda. rewrite Hu in Hdu. rewrite Hp in Hdp.
    rewrite (subscript_Some d _ _ Hda), ilo_bind. simpl.
    rewrite (subscript_Some d _ _ Hdu), ilo_bind. simpl.
    rewrite (subscript_Some d _ _ Hdp), ilo_bind. simpl.
    rewrite (subscript_Some d _ _ Hdt), ilo_bind. simpl.
    rewrite (subscript_Some d _ _ Hdpt), ilo_bind. simpl.
    done.
Qed.

Lemma ilo_object_from_parsed_info_witness :
  ∃ a u pw t pt,
    driver_info good_node !! "ilo_address" = Some a
    ∧ driver_info good_node !! "ilo_username" = Some u
    ∧ driver_info good_node !! "ilo_password" = Some pw
    ∧ int (optional_value (conf uefi_env) (driver_info good_node)
             "client_timeout") = inr t
    ∧ int (optional_value (conf uefi_env) (driver_info good_node)
             "client_port") = inr pt
    ∧ get_ilo_object uefi_env good_node []
      = (inr (), [] ++ [NewClient a u pw (PyInt t) (PyInt pt)]).
Proof.
  destruct (ilo_object_from_parsed_info uefi_env good_node []) as [_ H].
  apply (H _ IloCommonFacts.parse_good_info).
Defined.

(** The client is built or the parse error is the result; nothing else
    happens in [get_ilo_object]. *)
Lemma get_ilo_object_run (E : env) (n : node) (log : list call) :
  (∃ e, get_ilo_object E n log = (inl (Parse e), log))
  ∨ (∃ c, get_ilo_object E n log = (inr (), log ++ [c])
          ∧ ∃ a u pw t pt, c = NewClient a u pw t pt).
Proof.
  destruct (ilo_object_from_parsed_info E n log) as [He Hd].
  destruct (parse_driver_info (conf E) (driver_info n)) as [e|d] eqn:Hp.
  - left. exists e. by apply He.
  - right. destruct (Hd d eq_refl) as (a & u & pw & t & pt & _ & _ & _ & _ & _ & H).
    eexists. split; [exact H|]. by eexists _, _, _, _, _.
Qed.

Lemma suffixes_exclusive t :
  endswith t "Advanced" = true → endswith t "Essentials" = false.
Proof.
  unfold endswith.
  change (String.rev "Advanced") with "decnavdA".
  change (String.rev "Essentials") with "slaitnessE".
  destruct (String.rev t) as [|c r]; cbn [startswith]; [done|].
  intros [Hd _]%andb_true_iff.
  apply Ascii.eqb_eq in Hd as <-. done.
Qed.

(** X10.  [get_ilo_license] classifies the licence by the end of its
    [LICENSE_TYPE]: [ADVANCED_LICENSE] exactly when it ends in
    [Advanced], [ESSENTIALS_LICENSE] exactly when it ends in [Essentials],
    [STANDARD_LICENSE] in every other case; the result is always one of the
    three.  A failure of the client to list the licences is raised as
    [IloOperationError], and a licence list without [LICENSE_TYPE] is a
    [KeyError]. *)
Theorem license_by_suffix (E : env) (n : node) (log log' : list call) :
  get_ilo_object E n log = (inr (), log') →
  (∀ z, (get_ilo_license E n log).1 = inr z →
        ∃ t, all_licenses E log' !! "LICENSE_TYPE" = Some t
             ∧ (z = ADVANCED_LICENSE ↔ endswith t "Advanced" = true)
             ∧ (z = ESSENTIALS_LICENSE ↔ endswith t "Essentials" = true)
             ∧ (z = STANDARD_LICENSE
                ↔ endswith t "Advanced" = false
                  ∧ endswith t "Essentials" = false))
  ∧ (∀ e, fails E log' GetAllLicenses = Some e →
          get_ilo_license E n log
          = (inl (IloOperationError "iLO license check" e),
             log' ++ [GetAllLicenses]))
  ∧ (fails E log' GetAllLicenses = None →
     all_licenses E log' !! "LICENSE_TYPE" = None →
     (get_ilo_license E n log).1 = inl (KeyError "LICENSE_TYPE")).
Proof.
  intros Hg. unfold get_ilo_license. rewrite ilo_bind, Hg, ilo_bind.
  unfold ask. simpl.
  destruct (fails E log' GetAllLicenses) as [e|]; simpl.
  - split; [done|]. split; [by intros ? [= <-]|done].
  - rewrite ilo_bind. unfold subscript.
    destruct (all_licenses E log' !! "LICENSE_TYPE") as [t|]; simpl.
    + split; [|done]. intros z Hz. exists t. split; [done|].
      pose proof (suffixes_exclusive t) as Hex.
      destruct (endswith t "Advanced") eqn:Ha.
      * rewrite (Hex eq_refl). simpl in Hz. injection Hz as <-.
        unfold ADVANCED_LICENSE, ESSENTIALS_LICENSE, STANDARD_LICENSE.
        repeat split; try done; by intros [? ?].
      * destruct (endswith t "Essentials") eqn:He; simpl in Hz;
          injection Hz as <-;
          unfold ADVANCED_LICENSE, ESSENTIALS_LICENSE, STANDARD_LICENSE;
          repeat split; try done; by intros [? ?].
    + split; [done|]. split; [done|]. done.
Qed.

Lemma license_by_suffix_witness :
  ∃ t, all_licenses uefi_env
         [NewClient (PyStr "10.0.0.5") (PyStr "admin") (PyStr "secret")
                    (PyInt 60) (PyInt 8443)] !! "LICENSE_TYPE" = Some t
       ∧ (3 = ADVANCED_LICENSE ↔ endswith t "Advanced" = true)
       ∧ (3 = ESSENTIALS_LICENSE ↔ endswith t "Essentials" = true)
       ∧ (3 = STANDARD_LICENSE
          ↔ endswith t "Advanced" = false ∧ endswith t "Essentials" = false).
Proof.
  destruct (license_by_suffix uefi_env good_node []
              [NewClient (PyStr "10.0.0.5") (PyStr "admin") (PyStr "secret")
                         (PyInt 60) (PyInt 8443)]) as [H _].
  { by vm_compute. }
  apply H. by vm_compute.
Defined.

(** X11.  [update_ipmi_properties] copies the three iLO credentials to the
    IPMI keys, with [None] for a credential that is absent, and the console
    port to [ipmi_terminal_port] when there is one; without a console port an
    [ipmi_terminal_port] already there is kept.  Every other key keeps its
    value, and doing the update twice is the same as doing it once. *)
Theorem update_ipmi_properties_spec (info : gmap string value) :
  let info' := update_ipmi_properties info in
  info' !! "ipmi_address" = Some (get info "ilo_address")
  ∧ info' !! "ipmi_username" = Some (get info "ilo_username")
  ∧ info' !! "ipmi_password" = Some (get info "ilo_password")
  ∧ info' !! "ipmi_terminal_port"
    = match info !! "console_port" with
      | Some port => Some port
      | None => info !! "ipmi_terminal_port"
      end
  ∧ (∀ k, k ∉ ["ipmi_address"; "ipmi_username"; "ipmi_password";
               "ipmi_terminal_port"] →
          info' !! k = info !! k)
  ∧ update_ipmi_properties info' = info'.
Proof.
  intros info'.
  assert (∀ k, info' !! k
               = if decide (k = "ipmi_terminal_port") then
                   match info !! "console_port" with
                   | Some port => Some port
                   | None => info !! "ipmi_terminal_port"
                   end
                 else if decide (k = "ipmi_password")
                      then Some (get info "ilo_password")
                 else if decide (k = "ipmi_username")
                      then Some (get info "ilo_username")
                 else if decide (k = "ipmi_address")
                      then Some (get info "ilo_address")
                 else info !! k) as Hlook.
  { intros k. unfold info', update_ipmi_properties, get. cbv zeta.
    rewrite !lookup_insert_ne by done.
    destruct (info !! "console_port") as [port|] eqn:Hc;
      rewrite ?lookup_insert; repeat case_decide; subst; try done. }
  split; [by rewrite Hlook|]. split; [by rewrite Hlook|].
  split; [by rewrite Hlook|]. split; [by rewrite Hlook|].
  split.
  - intros k Hk. rewrite Hlook.
    repeat case_decide; subst; try done; exfalso; apply Hk; in_list.
  - apply map_eq. intros k.
    assert (update_ipmi_properties info' !! k
            = if decide (k = "ipmi_terminal_port") then
                match info' !! "console_port" with
                | Some port => Some port
                | None => info' !! "ipmi_terminal_port"
                end
              else if decide (k = "ipmi_password")
                   then Some (get info' "ilo_password")
              else if decide (k = "ipmi_username")
                   then Some (get info' "ilo_username")
              else if decide (k = "ipmi_address")
                   then Some (get info' "ilo_address")
              else info' !! k) as ->.
    { unfold update_ipmi_properties at 1, get. cbv zeta.
      rewrite !lookup_insert_ne by done.
      destruct (info' !! "console_port") as [port|] eqn:Hc;
        rewrite ?lookup_insert; repeat case_decide; subst; try done. }
    unfold get. rewrite !Hlook. simpl.
    repeat case_decide; subst; try done.
    by destruct (info !! "console_port").
Qed.

(** X12.  [cleanup_vmedia_boot] asks Swift at most once, to delete the
    floppy image named after the node in the configured container; then, if
    the driver information parses, it ejects the floppy and the CD-ROM, in
    this order, and returns normally whatever Swift and the controller
    answer: no error of the deletion or of an ejection comes out.  Only a
    parse error does, after the deletion was attempted.  Nodes with
    different identifiers have different floppy images. *)
Theorem cleanup_ejects_both (E : env) (n : node) (log : list call) :
  let log0 := (delete_floppy_image E n log).2 in
  (log0 = log
   ∨ log0 = log ++ [SwiftDeleteObject (swift_ilo_container E)
                                      ("image-" +:+ uuid n)])
  ∧ (∀ e, get_ilo_object E n log0 = (inl (Parse e), log0) →
          cleanup_vmedia_boot E n log = (inl (Parse e), log0))
  ∧ (∀ c, get_ilo_object E n log0 = (inr (), log0 ++ [c]) →
          cleanup_vmedia_boot E n log
          = (inr (), log0 ++ [c; EjectVirtualMedia "FLOPPY";
                              EjectVirtualMedia "CDROM"]))
  ∧ (∀ n', _get_floppy_image_name n = _get_floppy_image_name n' →
           uuid n = uuid n').
Proof.
  intros log0.
  assert ((delete_floppy_image E n log) = (inr (), log0)) as Hdel.
  { unfold log0, delete_floppy_image.
    by destruct (swift_api_fails E log). }
  split; [|split; [|split]].
  - unfold log0, delete_floppy_image, _get_floppy_image_name.
    destruct (swift_api_fails E log); simpl; auto.
  - intros e Hg. unfold cleanup_vmedia_boot.
    by rewrite ilo_bind, Hdel, ilo_bind, Hg.
  - intros c Hg. unfold cleanup_vmedia_boot.
    rewrite ilo_bind, Hdel, ilo_bind, Hg.
    cbv [mbind M_bind bind request ret]. by rewrite <- !app_assoc.
  - intros n'. unfold _get_floppy_image_name. by intros ?%(inj _).
Qed.

Lemma cleanup_ejects_both_witness :
  cleanup_vmedia_boot unsupported_env good_node []
  = (inr (),
     (delete_floppy_image unsupported_env good_node []).2
     ++ [ NewClient (PyStr "10.0.0.5") (PyStr "admin") (PyStr "secret")
                    (PyInt 60) (PyInt 8443);
          EjectVirtualMedia "FLOPPY"; EjectVirtualMedia "CDROM" ]).
Proof.
  destruct (cleanup_ejects_both unsupported_env good_node [])
    as (_ & _ & H & _).
  apply H. by vm_compute.
Defined.

Lemma ilo_to_generic k g :
  BOOT_MODE_ILO_TO_GENERIC !! k = Some g
  ↔ (k = "legacy" ∧ g = "bios") ∨ (k = "uefi" ∧ g = "uefi").
Proof.
  rewrite tables_inverse, !lookup_insert, lookup_empty.
  repeat case_decide; subst; split; try (intros [= <-]); try tauto;
    intros [[? ?]|[? ?]]; by subst.
Qed.

Lemma generic_to_ilo k m :
  BOOT_MODE_GENERIC_TO_ILO !! k = Some m
  ↔ (k = "bios" ∧ m = "legacy") ∨ (k = "uefi" ∧ m = "uefi").
Proof.
  unfold BOOT_MODE_GENERIC_TO_ILO. rewrite !lookup_insert, lookup_empty.
  repeat case_decide; subst; split; try (intros [= <-]); try tauto;
    intros [[? ?]|[? ?]]; by subst.
Qed.

Lemma pending_or_run E fallback log :
  pending_or E fallback log
  = (match fails E log GetPendingBootMode with
     | None => inr (pending_boot_mode E log)
     | Some (IloCommandNotSupportedError _) => inr fallback
     | Some e => inl (Ilo e)
     end, log ++ [GetPendingBootMode]).
Proof.
  unfold pending_or. rewrite ilo_bind. unfold ask. simpl.
  by destruct (fails E log GetPendingBootMode) as [[]|].
Qed.

Lemma set_pending_run E boot_mode log :
  set_pending E boot_mode log
  = match BOOT_MODE_GENERIC_TO_ILO !! boot_mode with
    | None => (inl (KeyError boot_mode), log)
    | Some m =>
        (match fails E log (SetPendingBootMode (upper m)) with
         | Some e =>
             inl (IloOperationError
                    ("Setting " +:+ boot_mode +:+ " as boot mode") e)
         | None => inr ()
         end, log ++ [SetPendingBootMode (upper m)])
    end.
Proof.
  unfold set_pending. rewrite ilo_bind. unfold subscript.
  destruct (BOOT_MODE_GENERIC_TO_ILO !! boot_mode) as [m|]; [|done].
  simpl. rewrite ilo_bind. unfold request. simpl.
  by destruct (fails E log (SetPendingBootMode (upper m))).
Qed.

(** X13.  [set_boot_mode], once the client is built: when the boot mode
    pending on the controller already is the requested one, nothing is set;
    a controller that does not support the query counts as pending
    [LEGACY], that is [bios]; any other failure of the query leaves the
    function as the client's own error, not as [IloOperationError]; a pending
    mode that is neither [legacy] nor [uefi] in any letter case, such as
    [UNKNOWN], is a [KeyError]; and whatever happens, a mode that is set is
    [LEGACY] for [bios] or [UEFI] for [uefi]. *)
Theorem set_boot_mode_cases (E : env) (n : node) (boot_mode : string)
    (log log' : list call) :
  get_ilo_object E n log = (inr (), log') →
  (fails E log' GetPendingBootMode = None →
   BOOT_MODE_ILO_TO_GENERIC !! lower (pending_boot_mode E log')
   = Some boot_mode →
   set_boot_mode E n boot_mode log = (inr (), log' ++ [GetPendingBootMode]))
  ∧ (∀ m, fails E log' GetPendingBootMode
          = Some (IloCommandNotSupportedError m) →
          boot_mode = "bios" →
          set_boot_mode E n boot_mode log
          = (inr (), log' ++ [GetPendingBootMode]))
  ∧ (∀ m, fails E log' GetPendingBootMode = Some (IloError m) →
          set_boot_mode E n boot_mode log
          = (inl (Ilo (IloError m)), log' ++ [GetPendingBootMode]))
  ∧ (fails E log' GetPendingBootMode = None →
     BOOT_MODE_ILO_TO_GENERIC !! lower (pending_boot_mode E log') = None →
     set_boot_mode E n boot_mode log
     = (inl (KeyError (lower (pending_boot_mode E log'))),
        log' ++ [GetPendingBootMode]))
  ∧ (∀ mode, SetPendingBootMode mode ∈ (set_boot_mode E n boot_mode log).2 →
             SetPendingBootMode mode ∈ log'
             ∨ (mode = "LEGACY" ∧ boot_mode = "bios")
             ∨ (mode = "UEFI" ∧ boot_mode = "uefi")).
Proof.
  intros Hg. unfold set_boot_mode.
  rewrite ilo_bind, Hg, ilo_bind, pending_or_run.
  split; [|split; [|split; [|split]]].
  - intros -> Hp. rewrite ilo_bind. unfold subscript. rewrite Hp. simpl.
    by rewrite bool_decide_eq_true_2.
  - intros m -> ->. rewrite ilo_bind. done.
  - by intros m ->.
  - intros -> Hp. rewrite ilo_bind. unfold subscript. by rewrite Hp.
  - intros mode.
    assert (∀ l : list call, SetPendingBootMode mode ∈ l ++ [GetPendingBootMode]
                             → SetPendingBootMode mode ∈ l) as Hold.
    { intros l. rewrite elem_of_app, list_elem_of_singleton.
      by intros [?|[=]]. }
    destruct (match fails E log' GetPendingBootMode with
              | Some (IloError _ as e) => inl (Ilo e)
              | Some (IloCommandNotSupportedError _) => inr DEFAULT_BOOT_MODE
              | None => inr (pending_boot_mode E log')
              end) as [e|p]; simpl; [by intros ?%Hold; left|].
    rewrite ilo_bind. unfold subscript.
    destruct (BOOT_MODE_ILO_TO_GENERIC !! lower p) as [g|]; simpl;
      [|by intros ?%Hold; left].
    case_bool_decide; simpl; [by intros ?%Hold; left|].
    rewrite set_pending_run.
    destruct (BOOT_MODE_GENERIC_TO_ILO !! boot_mode) as [m|] eqn:Hm; simpl;
      [|by intros ?%Hold; left].
    rewrite elem_of_app, list_elem_of_singleton.
    intros [?%Hold|[= ->]]; [by left|right].
    apply generic_to_ilo in Hm as [[-> ->]|[-> ->]]; [left|right]; done.
Qed.

Lemma set_boot_mode_cases_witness :
  set_boot_mode unsupported_env good_node "bios" []
  = (inr (),
     [ NewClient (PyStr "10.0.0.5") (PyStr "admin") (PyStr "secret")
                 (PyInt 60) (PyInt 8443) ] ++ [GetPendingBootMode]).
Proof.
  destruct (set_boot_mode_cases unsupported_env good_node "bios" []
              [ NewClient (PyStr "10.0.0.5") (PyStr "admin") (PyStr "secret")
                          (PyInt 60) (PyInt 8443) ]) as (_ & H & _).
  { by vm_compute. }
  apply (H "not supported"); reflexivity.
Defined.

(** X14.  [update_boot_mode] with a boot mode given for the deploy sets it
    on the controller and leaves the node as it was, unsaved.  Without one,
    whenever it returns it has recorded [bios] or [uefi], and nothing else,
    as [deploy_boot_mode] in the node's [instance_info], has kept every
    other entry, the identifier and the driver information, and has saved
    the node as its last action. *)
Theorem update_boot_mode_records (E : env) (n n' : node)
    (log log1 : list call) :
  (∀ boot_mode,
     update_boot_mode E (Some boot_mode) n log = (inr n', log1) →
     n' = n ∧ set_boot_mode E n boot_mode log = (inr (), log1))
  ∧ (update_boot_mode E None n log = (inr n', log1) →
     uuid n' = uuid n
     ∧ driver_info n' = driver_info n
     ∧ (instance_info n' !! "deploy_boot_mode" = Some "bios"
        ∨ instance_info n' !! "deploy_boot_mode" = Some "uefi")
     ∧ (∀ k, k ≠ "deploy_boot_mode" →
             instance_info n' !! k = instance_info n !! k)
     ∧ last log1 = Some NodeSave).
Proof.
  split.
  - intros boot_mode. unfold update_boot_mode. rewrite ilo_bind.
    destruct (set_boot_mode E n boot_mode log) as [[e|[]] l]; [done|].
    by intros [= <- <-].
  - unfold update_boot_mode. rewrite ilo_bind.
    destruct (get_ilo_object E n log) as [[e|[]] log']; [done|].
    rewrite ilo_bind, pending_or_run.
    destruct (match fails E log' GetPendingBootMode with
              | Some (IloError _ as e) => inl (Ilo e)
              | Some (IloCommandNotSupportedError _) => inr "legacy"
              | None => inr (pending_boot_mode E log')
              end) as [e|p]; [done|].
    rewrite ilo_bind.
    assert (∀ (mode : string) l,
              (mode = "bios" ∨ mode = "uefi") →
              (tell NodeSave ≫= (λ _, ret
                 {| uuid := uuid n; driver_info := driver_info n;
                    instance_info :=
                      <["deploy_boot_mode" := mode]> (instance_info n) |}))
                l = (inr n', log1) →
              uuid n' = uuid n ∧ driver_info n' = driver_info n
              ∧ (instance_info n' !! "deploy_boot_mode" = Some "bios"
                 ∨ instance_info n' !! "deploy_boot_mode" = Some "uefi")
              ∧ (∀ k, k ≠ "deploy_boot_mode" →
                      instance_info n' !! k = instance_info n !! k)
              ∧ last log1 = Some NodeSave) as Hsave.
    { intros mode l Hmode. rewrite ilo_bind. unfold tell, ret.
      intros [= <- <-]. simpl. rewrite lookup_insert_eq, last_snoc.
      split; [done|]. split; [done|]. split.
      - destruct Hmode as [-> | ->]; auto.
      - split; [|done]. intros k Hk. by rewrite lookup_insert_ne. }
    case_bool_decide as Hunk.
    + unfold subscript.
      destruct (BOOT_MODE_ILO_TO_GENERIC !! lower p) as [g|] eqn:Hgen;
        [|done].
      simpl. rewrite ilo_bind.
      apply ilo_to_generic in Hgen as [[_ ->]|[_ ->]];
        rewrite bool_decide_eq_false_2 by done; simpl;
        apply Hsave; auto.
    + simpl. subst p.
      rewrite ilo_bind. rewrite bool_decide_eq_true_2 by done.
      rewrite ilo_bind, set_pending_run. simpl.
      assert (BOOT_MODE_GENERIC_TO_ILO !! "uefi" = Some "uefi") as ->
        by (by vm_compute).
      match goal with
      | |- context [fails E ?l ?c] => destruct (fails E l c)
      end; [done|].
      simpl. apply Hsave. auto.
Qed.

Lemma update_boot_mode_records_witness :
  ∃ n' log1,
    update_boot_mode uefi_env None good_node [] = (inr n', log1)
    ∧ (instance_info n' !! "deploy_boot_mode" = Some "bios"
       ∨ instance_info n' !! "deploy_boot_mode" = Some "uefi")
    ∧ last log1 = Some NodeSave.
Proof.
  destruct (update_boot_mode uefi_env None good_node [])
    as [[e|n'] log1] eqn:Hr.
  - vm_compute in Hr. discriminate Hr.
  - exists n', log1. split; [done|].
    destruct (update_boot_mode_records uefi_env good_node n' [] log1)
      as [_ H].
    destruct (H Hr) as (_ & _ & Hm & _ & Hl). by split.
Defined.

(** X15.  [get_secure_boot_mode], once the client is built: on a controller
    that is not in UEFI boot mode the answer is [False] and the secure boot
    state is not queried; the answer is [True] only when the controller is
    in UEFI boot mode and reports secure boot as on. *)
Theorem secure_boot_only_in_uefi (E : env) (n : node) (log log' : list call) :
  get_ilo_object E n log = (inr (), log') →
  (fails E log' GetCurrentBootMode = None →
   current_boot_mode E log' ≠ "UEFI" →
   get_secure_boot_mode E n log = (inr false, log' ++ [GetCurrentBootMode]))
  ∧ ((get_secure_boot_mode E n log).1 = inr true →
     fails E log' GetCurrentBootMode = None
     ∧ current_boot_mode E log' = "UEFI"
     ∧ fails E (log' ++ [GetCurrentBootMode]) GetSecureBootMode = None
     ∧ secure_boot E (log' ++ [GetCurrentBootMode]) = true
     ∧ (get_secure_boot_mode E n log).2
       = log' ++ [GetCurrentBootMode; GetSecureBootMode]).
Proof.
  intros Hg. unfold get_secure_boot_mode.
  rewrite ilo_bind, Hg, ilo_bind. unfold ask at 1. simpl.
  split.
  - intros -> Hne. by rewrite bool_decide_eq_false_2.
  - destruct (fails E log' GetCurrentBootMode) as [e|]; [done|].
    case_bool_decide as Hu; [|done].
    rewrite ilo_bind. unfold ask. simpl.
    destruct (fails E (log' ++ [GetCurrentBootMode]) GetSecureBootMode)
      as [e|]; [done|].
    simpl. intros [= ->]. by rewrite <- app_assoc.
Qed.

Lemma secure_boot_only_in_uefi_witness :
  fails uefi_env
    [NewClient (PyStr "10.0.0.5") (PyStr "admin") (PyStr "secret")
               (PyInt 60) (PyInt 8443)] GetCurrentBootMode = None
  ∧ current_boot_mode uefi_env
      [NewClient (PyStr "10.0.0.5") (PyStr "admin") (PyStr "secret")
                 (PyInt 60) (PyInt 8443)] = "UEFI".
Proof.
  destruct (secure_boot_only_in_uefi uefi_env good_node []
              [NewClient (PyStr "10.0.0.5") (PyStr "admin") (PyStr "secret")
                         (PyInt 60) (PyInt 8443)]) as [_ H].
  { by vm_compute. }
  destruct H as (H1 & H2 & _); [by vm_compute|]. by split.
Defined.

(** The exception the secure boot functions raise for an error of the
    client tells the two kinds of error apart. *)
Lemma secure_boot_error_kind operation e :
  match secure_boot_error operation e with
  | IloOperationNotSupported op e' =>
      op = operation ∧ e' = e ∧ ∃ m, e = IloCommandNotSupportedError m
  | IloOperationError op e' =>
      op = operation ∧ e' = e ∧ ∃ m, e = IloError m
  | _ => False
  end.
Proof. destruct e; simpl; eauto. Qed.

(** X16.  No error of the iLO client leaves [attach_vmedia],
    [get_ilo_license], [get_secure_boot_mode] or [set_secure_boot_mode] as
    it is, and none of them ends in a [KeyError] other than the licence
    lookup: what comes out is a parse error or one of the driver's iLO
    exceptions, and the secure boot functions raise
    [IloOperationNotSupported] only for an unsupported command and
    [IloOperationError] only for another client error. *)
Theorem client_errors_translated (E : env) (n : node) (log : list call) :
  (∀ device url e,
     (attach_vmedia E n device url log).1 = inl e →
     (∃ pe, e = Parse pe)
     ∨ ∃ ie, e = IloOperationError ("Inserting virtual media " +:+ device) ie)
  ∧ (∀ e, (get_ilo_license E n log).1 = inl e →
          (∃ pe, e = Parse pe)
          ∨ (∃ ie, e = IloOperationError "iLO license check" ie)
          ∨ e = KeyError "LICENSE_TYPE")
  ∧ (∀ e, (get_secure_boot_mode E n log).1 = inl e →
          (∃ pe, e = Parse pe)
          ∨ (∃ op m, e = IloOperationNotSupported op
                           (IloCommandNotSupportedError m))
          ∨ (∃ op m, e = IloOperationError op (IloError m)))
  ∧ (∀ flag e, (set_secure_boot_mode E n flag log).1 = inl e →
               (∃ pe, e = Parse pe)
               ∨ (∃ op m, e = IloOperationNotSupported op
                                (IloCommandNotSupportedError m))
               ∨ (∃ op m, e = IloOperationError op (IloError m))).
Proof.
  assert (∀ op ie, (∃ op' m, secure_boot_error op ie
                             = IloOperationNotSupported op'
                                 (IloCommandNotSupportedError m))
                   ∨ (∃ op' m, secure_boot_error op ie
                               = IloOperationError op' (IloError m)))
    as Hkind.
  { intros op [m|m]; simpl; eauto. }
  destruct (get_ilo_object_run E n log) as [[pe Hg]|(c & Hg & _)].
  - split; [|split; [|split]]; intros;
      match goal with H : _ = inl _ |- _ => revert H end;
      unfold attach_vmedia, get_ilo_license, get_secure_boot_mode,
        set_secure_boot_mode;
      rewrite ilo_bind, Hg; simpl; intros [= <-]; left; by eexists.
  - split; [|split; [|split]].
    + intros device url e. unfold attach_vmedia.
      rewrite ilo_bind, Hg, ilo_bind. unfold request at 1. simpl.
      destruct (fails E _ (InsertVirtualMedia url device)) as [ie|]; simpl.
      * intros [= <-]. right. by eexists.
      * rewrite ilo_bind. unfold request. simpl.
        destruct (fails E _ (SetVmStatus device "CONNECT" "YES")) as [ie|];
          simpl; [|done].
        intros [= <-]. right. by eexists.
    + intros e. unfold get_ilo_license.
      rewrite ilo_bind, Hg, ilo_bind. unfold ask. simpl.
      destruct (fails E _ GetAllLicenses) as [ie|]; simpl.
      * intros [= <-]. right. left. by eexists.
      * rewrite ilo_bind. unfold subscript.
        destruct (all_licenses E _ !! "LICENSE_TYPE") as [t|]; simpl.
        -- destruct (endswith t "Advanced"); [done|].
           by destruct (endswith t "Essentials").
        -- intros [= <-]. by right; right.
    + intros e. unfold get_secure_boot_mode.
      rewrite ilo_bind, Hg, ilo_bind. unfold ask at 1. simpl.
      destruct (fails E _ GetCurrentBootMode) as [ie|]; simpl.
      * intros [= <-]. right. apply Hkind.
      * case_bool_decide; [|done].
        rewrite ilo_bind. unfold ask. simpl.
        destruct (fails E _ GetSecureBootMode) as [ie|]; simpl; [|done].
        intros [= <-]. right. apply Hkind.
    + intros flag e. unfold set_secure_boot_mode.
      rewrite ilo_bind, Hg, ilo_bind. unfold request. simpl.
      destruct (fails E _ (SetSecureBootMode flag)) as [ie|]; simpl; [|done].
      intros [= <-]. right. apply Hkind.
Qed.

Lemma client_errors_translated_witness :
  (∃ pe, IloOperationNotSupported "Setting secure boot to True for node 1be26c0b."
           (IloCommandNotSupportedError "not supported") = Parse pe)
  ∨ (∃ op m, IloOperationNotSupported
               "Setting secure boot to True for node 1be26c0b."
               (IloCommandNotSupportedError "not supported")
             = IloOperationNotSupported op (IloCommandNotSupportedError m))
  ∨ (∃ op m, IloOperationNotSupported
               "Setting secure boot to True for node 1be26c0b."
               (IloCommandNotSupportedError "not supported")
             = IloOperationError op (IloError m)).
Proof.
  destruct (client_errors_translated unsupported_env good_node [])
    as (_ & _ & _ & H).
  apply (H true). by vm_compute.
Defined.

End IloOpsFacts.

(** ** Properties of the vendor passthru routes *)

Module VendorRoutesFacts.
Import VendorRoutes.

Example sample_vendor_routes :
  vendor_routes (new sample_vendor)
  = {[ "heartbeat" :=
         {| route_metadata := {| http_methods := ["POST"]; async := true;
                                 description := "" |};
            func := passthru ["post"] None true None (def "heartbeat") |} ]}
  ∧ dom (driver_routes (new sample_vendor)) = {[ "find" ]}.
Proof. split; by vm_compute. Qed.

Lemma routes_split acc l :
  vendor_routes (foldl add_routes acc l)
  = foldl (add_route _vendor_metadata) (vendor_routes acc) l
  ∧ driver_routes (foldl add_routes acc l)
    = foldl (add_route _driver_metadata) (driver_routes acc) l.
Proof.
  revert acc. induction l as [|nr l IH]; intros acc; simpl; [done|].
  destruct (IH (add_routes acc nr)) as [-> ->].
  unfold add_routes, add_route.
  destruct (nr.2) as [ref|]; [|done].
  by destruct (_vendor_metadata ref), (_driver_metadata ref).
Qed.

Section one_table.
Variable sel : function → option vendor_metadata.

Lemma add_route_mono routes nr k :
  is_Some (routes !! k) → is_Some (add_route sel routes nr !! k).
Proof.
  intros Hk. unfold add_route. destruct (nr.2) as [ref|]; [|done].
  destruct (sel ref) as [m|]; [|done].
  rewrite lookup_insert. by case_decide.
Qed.

Lemma foldl_add_route_mono l routes k :
  is_Some (routes !! k) → is_Some (foldl (add_route sel) routes l !! k).
Proof.
  revert routes. induction l as [|nr l IH]; intros routes Hk; [done|].
  simpl. by apply IH, add_route_mono.
Qed.

Lemma foldl_add_route_in l routes n f m :
  (n, Method f) ∈ l → sel f = Some m →
  is_Some (foldl (add_route sel) routes l !! method m).
Proof.
  revert routes. induction l as [|nr l IH]; intros routes Hin Hm.
  - by apply elem_of_nil in Hin.
  - simpl. apply elem_of_cons in Hin as [<-|Hin]; [|by apply IH].
    apply foldl_add_route_mono. unfold add_route. simpl. rewrite Hm.
    rewrite lookup_insert_eq. by eexists.
Qed.

Lemma foldl_add_route_Some l routes api r :
  foldl (add_route sel) routes l !! api = Some r →
  routes !! api = Some r
  ∨ ∃ n m, (n, Method (func r)) ∈ l ∧ sel (func r) = Some m
           ∧ method m = api ∧ route_metadata r = metadata_of m.
Proof.
  revert routes. induction l as [|nr l IH]; intros routes Hr; [by left|].
  simpl in Hr. apply IH in Hr as [Hr|(n & m & Hin & ?)].
  - unfold add_route in Hr. destruct nr as [n mem]. simpl in Hr.
    destruct mem as [ref|]; [|by left].
    destruct (sel ref) as [m|] eqn:Hm; [|by left].
    rewrite lookup_insert in Hr. case_decide as Hk; [|by left].
    injection Hr as <-. right. exists n, m. simpl.
    split; [by left|done].
  - right. exists n, m. split; [by right|done].
Qed.

Lemma routes_of_members (ns : gmap string member) api :
  let routes := foldl (add_route sel) ∅ (getmembers ns ismethod) in
  (is_Some (routes !! api)
   ↔ ∃ n f m, ns !! n = Some (Method f) ∧ sel f = Some m ∧ method m = api)
  ∧ (∀ r, routes !! api = Some r →
          ∃ n m, ns !! n = Some (Method (func r))
                 ∧ sel (func r) = Some m ∧ method m = api
                 ∧ route_metadata r = metadata_of m).
Proof.
  intros routes.
  assert (∀ n mem, (n, mem) ∈ getmembers ns ismethod
                   ↔ ns !! n = Some mem ∧ ismethod mem = true) as Hmem.
  { intros n mem. unfold getmembers.
    rewrite merge_sort_Permutation, list_elem_of_filter,
      elem_of_map_to_list. simpl. tauto. }
  assert (∀ r, routes !! api = Some r →
          ∃ n m, ns !! n = Some (Method (func r))
                 ∧ sel (func r) = Some m ∧ method m = api
                 ∧ route_metadata r = metadata_of m) as Hfrom.
  { intros r Hr. apply foldl_add_route_Some in Hr as [Hr|(n & m & Hin & ?)].
    - by rewrite lookup_empty in Hr.
    - apply Hmem in Hin as [Hn _]. by exists n, m. }
  split; [|done]. split.
  - intros [r Hr]. destruct (Hfrom r Hr) as (n & m & Hn & Hm & Ha & _).
    by exists n, (func r), m.
  - intros (n & f & m & Hn & Hm & <-).
    apply (foldl_add_route_in _ _ n f m); [|done]. by apply Hmem.
Qed.
End one_table.

(** X17.  The tables [VendorInterface.__new__] builds hold exactly the
    decorated methods: a name is a route in [vendor_routes] exactly when some
    method of the instance carries vendor metadata with that method name,
    and in [driver_routes] exactly when one carries driver metadata with it;
    the route found under a name holds a method that carries this name, with
    the metadata of that method.  When the decorated methods have distinct
    route names, every one of them is found under its own. *)
Theorem routes_of_decorated_methods (ns : gmap string member) :
  let inst := new ns in
  (∀ api, is_Some (vendor_routes inst !! api)
          ↔ ∃ n f m, ns !! n = Some (Method f)
                     ∧ _vendor_metadata f = Some m ∧ method m = api)
  ∧ (∀ api, is_Some (driver_routes inst !! api)
            ↔ ∃ n f m, ns !! n = Some (Method f)
                       ∧ _driver_metadata f = Some m ∧ method m = api)
  ∧ (∀ api r, vendor_routes inst !! api = Some r →
              ∃ n m, ns !! n = Some (Method (func r))
                     ∧ _vendor_metadata (func r) = Some m ∧ method m = api
                     ∧ route_metadata r = metadata_of m)
  ∧ (∀ api r, driver_routes inst !! api = Some r →
              ∃ n m, ns !! n = Some (Method (func r))
                     ∧ _driver_metadata (func r) = Some m ∧ method m = api
                     ∧ route_metadata r = metadata_of m)
  ∧ (distinct_routes _vendor_metadata ns →
     ∀ n f m, ns !! n = Some (Method f) → _vendor_metadata f = Some m →
              vendor_routes inst !! method m
              = Some {| route_metadata := metadata_of m; func := f |})
  ∧ (distinct_routes _driver_metadata ns →
     ∀ n f m, ns !! n = Some (Method f) → _driver_metadata f = Some m →
              driver_routes inst !! method m
              = Some {| route_metadata := metadata_of m; func := f |}).
Proof.
  intros inst. unfold inst, new.
  destruct (routes_split {| vendor_routes := ∅; driver_routes := ∅ |}
              (getmembers ns ismethod)) as [-> ->]. simpl.
  assert (∀ sel, distinct_routes sel ns →
            ∀ n f m, ns !! n = Some (Method f) → sel f = Some m →
              foldl (add_route sel) ∅ (getmembers ns ismethod) !! method m
              = Some {| route_metadata := metadata_of m; func := f |})
    as Hdistinct.
  { intros sel Hd n f m Hn Hm.
    destruct (routes_of_members sel ns (method m)) as [Hdom Hfrom].
    destruct (proj2 Hdom) as [r Hr]; [by exists n, f, m|].
    destruct (Hfrom r Hr) as (n' & m' & Hn' & Hm' & Ha & Hmeta).
    assert (n' = n) as -> by (by eapply Hd).
    rewrite Hn in Hn'. injection Hn' as Hf. rewrite <- Hf in Hm'.
    rewrite Hm in Hm'. injection Hm' as <-.
    rewrite Hr. f_equal. destruct r; simpl in *. by subst. }
  split; [intros api; apply (routes_of_members _vendor_metadata ns api)|].
  split; [intros api; apply (routes_of_members _driver_metadata ns api)|].
  split; [intros api; apply (routes_of_members _vendor_metadata ns api)|].
  split; [intros api; apply (routes_of_members _driver_metadata ns api)|].
  split; apply Hdistinct.
Qed.

Lemma upper_char_idem c :
  IloOps.upper_char (IloOps.upper_char c) = IloOps.upper_char c.
Proof. by destruct c as [[] [] [] [] [] [] [] []]. Qed.

Lemma upper_idem s : IloOps.upper (IloOps.upper s) = IloOps.upper s.
Proof.
  induction s as [|c s IH]; [done|].
  cbn [IloOps.upper]. by rewrite upper_char_idem, IH.
Qed.

Lemma sample_vendor_distinct : distinct_routes _vendor_metadata sample_vendor.
Proof.
  intros n1 n2 f1 f2 m1 m2. unfold sample_vendor.
  rewrite !lookup_insert, lookup_empty.
  repeat case_decide; subst; try done;
    intros [= <-] [= <-]; simpl; try done.
Qed.

(** X18.  A method decorated with [passthru] is routed under the method
    name given to the decorator, or under its own name when none is given;
    the route lists the HTTP methods of the decorator in upper case, whatever
    case they were written in, and carries the [async] flag and the
    description, the empty string when there is none.  The decoration
    leaves the driver metadata of the function as it was, so a node
    passthru method is no driver route.  This is for an interface whose
    vendor routes have distinct names. *)
Theorem passthru_method_route (ns : gmap string member) (n : string)
    (hm : list string) (meth : option string) (asy : bool)
    (descr : option string) (f : function) :
  distinct_routes _vendor_metadata ns →
  ns !! n = Some (Method (passthru hm meth asy descr f)) →
  ∃ r, vendor_routes (new ns) !! default (__name__ f) meth = Some r
       ∧ func r = passthru hm meth asy descr f
       ∧ http_methods (route_metadata r) = IloOps.upper <$> hm
       ∧ Forall (λ h, IloOps.upper h = h) (http_methods (route_metadata r))
       ∧ async (route_metadata r) = asy
       ∧ description (route_metadata r) = default "" descr
       ∧ _driver_metadata (func r) = _driver_metadata f.
Proof.
  intros Hd Hn.
  destruct (routes_of_decorated_methods ns) as (_ & _ & _ & _ & Hv & _).
  specialize (Hv Hd n _ _ Hn eq_refl). simpl in Hv.
  eexists. split; [exact Hv|]. simpl. repeat split.
  apply Forall_fmap, Forall_forall. intros h _. apply upper_idem.
Qed.

Lemma passthru_method_route_witness :
  ∃ r, vendor_routes (new sample_vendor) !! "heartbeat" = Some r
       ∧ func r = passthru ["post"] None true None (def "heartbeat")
       ∧ http_methods (route_metadata r) = ["POST"]
       ∧ Forall (λ h, IloOps.upper h = h) (http_methods (route_metadata r))
       ∧ async (route_metadata r) = true
       ∧ description (route_metadata r) = ""
       ∧ _driver_metadata (func r) = None.
Proof.
  apply (passthru_method_route sample_vendor "heartbeat" ["post"] None true
           None (def "heartbeat") sample_vendor_distinct).
  reflexivity.
Defined.

End VendorRoutesFacts.

(** ** Further properties of the vendor passthru wrapper *)

Module PassthruMore.
Import Passthru PassthruStack.

Lemma vendor_passthru_is_ironic m :
  isinstance {| exc_class := VendorPassthruException; exc_message := m |}
             IronicException = true.
Proof. by vm_compute. Qed.

(** X19.  Whatever the wrapped function does, an exception that leaves the
    passthru handler is an [IronicException] or lies outside [Exception]:
    callers never see a plain [Exception].  Wrapping a function twice, as
    when both decorators are applied to it, gives the outcome and the state
    that wrapping it once gives. *)
Theorem passthru_handler_closed {A S V} (method method' : option string)
    (func : callable A S V) (args : A) (s : S) :
  (∀ e s' log, passthru_handler method func args s = (Raises e, s', log) →
               isinstance e IronicException = true
               ∨ isinstance e Exception = false)
  ∧ (passthru_handler method' (handler method func) args s).1
    = (passthru_handler method func args s).1.
Proof.
  split.
  - intros e s' log. unfold passthru_handler.
    destruct (call func args s) as [[v|e0] s0]; [done|].
    destruct (isinstance e0 IronicException) eqn:Hi.
    + intros [= <- _ _]. by left.
    + destruct (isinstance e0 Exception) eqn:He.
      * intros [= <- _ _]. left. apply vendor_passthru_is_ironic.
      * intros [= <- _ _]. by right.
  - unfold passthru_handler at 1. unfold handler. cbn [call].
    unfold passthru_handler.
    destruct (call func args s) as [[v|e0] s0]; [done|].
    destruct (isinstance e0 IronicException) eqn:Hi; cbn [fst].
    + by rewrite Hi.
    + destruct (isinstance e0 Exception) eqn:He; cbn [fst].
      * by rewrite vendor_passthru_is_ironic.
      * by rewrite Hi, He.
Qed.

Lemma passthru_handler_closed_witness :
  isinstance (Exc VendorPassthruException
                (OfException ValueError (Text "bad address")))
             IronicException = true
  ∨ isinstance (Exc VendorPassthruException
                  (OfException ValueError (Text "bad address")))
               Exception = false.
Proof.
  destruct (passthru_handler_closed None None failing () ()) as [H _].
  eapply H. reflexivity.
Defined.

End PassthruMore.

(** ** Further properties of the dictionary field *)

Module FieldsMore.
Import Py Fields.

(** X20.  Coercion by a [FlexibleDictField] is idempotent: a value the field
    has let through goes through again unchanged, and a dictionary is taken
    as it is without being parsed.  For a field that is not nullable, a null
    value never becomes a dictionary: the call raises, or, when the field
    has a default that can be coerced, returns [None], because the result of
    the base class is not returned. *)
Theorem flexible_dict_coerce_idempotent
    (literal_eval : string → builtin_error + value) (self : field) :
  (∀ v r, call literal_eval self v = inr r → call literal_eval self r = inr r)
  ∧ (∀ d, call literal_eval self (PyDict d) = inr (PyDict d))
  ∧ (nullable self = false →
     (∀ r, call literal_eval self PyNone = inr r →
           r = PyNone
           ∧ ∃ d r', default_value self = Some d
                     ∧ FlexibleDict_coerce literal_eval d = inr r')
     ∧ (default_value self = None →
        call literal_eval self PyNone = inl ValueError)).
Proof.
  assert (∀ d, call literal_eval self (PyDict d) = inr (PyDict d)) as Hd
    by done.
  split; [|split; [done|]].
  - intros v r Hr.
    assert (v = PyNone ∨ FlexibleDict_coerce literal_eval v = inr r)
      as [->|Hc] by (destruct v; auto).
    + revert Hr. unfold call, coerce, _null, Field_null.
      destruct (nullable self); [by intros [= <-]|].
      destruct (default_value self) as [d|]; [|done].
      destruct (FlexibleDict_coerce literal_eval d); [done|].
      by intros [= <-].
    + apply FieldsFacts.FlexibleDict_coerce_dict in Hc as [d ->]. apply Hd.
  - intros Hn. unfold call, coerce, _null, Field_null. rewrite Hn.
    split.
    + intros r. destruct (default_value self) as [d|]; [|done].
      destruct (FlexibleDict_coerce literal_eval d) as [e|r'] eqn:Hc; [done|].
      intros [= <-]. split; [done|]. by exists d, r'.
    + by intros ->.
Qed.

Lemma flexible_dict_coerce_idempotent_witness :
  call literal_eval_braces (Field false None) PyNone = inl ValueError.
Proof.
  destruct (flexible_dict_coerce_idempotent literal_eval_braces
              (Field false None)) as (_ & _ & H).
  destruct (H eq_refl) as [_ H']. by apply H'.
Defined.

End FieldsMore.

(** ** Further properties of periodic driver tasks *)

Module PeriodicTaskMore.
Import PeriodicTask PeriodicTaskEvents.
Local Open Scope nat_scope.

Lemma step_other st ev name :
  ¬ concerns name ev → sems (step st ev) name = sems st name.
Proof.
  destruct ev as [t i|n i]; simpl; intros Hne.
  - unfold wrapper, _internal, log. cbv zeta.
    destruct (parallel t); simpl; [|done].
    destruct (counter (sems st (task_name t))); simpl;
      by rewrite fn_lookup_insert_ne.
  - unfold func_returns. case_bool_decide; [|done].
    destruct (waiters (sems st n)); simpl; by rewrite fn_lookup_insert_ne.
Qed.

Lemma step_same st1 st2 ev name :
  concerns name ev → sems st1 name = sems st2 name →
  sems (step st1 ev) name = sems (step st2 ev) name.
Proof.
  destruct ev as [t i|n i]; simpl; intros Hc Heq.
  - unfold wrapper, _internal, log. cbv zeta. rewrite Hc.
    destruct (parallel t); simpl; [|done].
    rewrite Heq.
    destruct (counter (sems st2 name)); simpl;
      by rewrite !fn_lookup_insert.
  - subst n. unfold func_returns. rewrite Heq.
    case_bool_decide; [|done].
    destruct (waiters (sems st2 name)); simpl; by rewrite !fn_lookup_insert.
Qed.

Lemma foldl_step_projection evs st1 st2 name :
  sems st1 name = sems st2 name →
  sems (foldl step st1 evs) name
  = sems (foldl step st2 (filter (concerns name) evs)) name.
Proof.
  revert st1 st2. induction evs as [|ev evs IH]; intros st1 st2 Heq; [done|].
  rewrite filter_cons. simpl. destruct (decide (concerns name ev)); simpl.
  - apply IH. by apply step_same.
  - apply IH. by rewrite step_other.
Qed.

(** X21.  Every decorated task has a semaphore of its own, and tasks do not
    interfere: after any sequence of ticks and completions, the semaphore of
    a task, the ticks waiting on it and its runs in progress are what they
    would be had the events of all other tasks never happened.  A tick or a
    completion of another task changes nothing for the task, and an inline
    tick touches no semaphore at all. *)
Theorem tasks_do_not_interfere (evs : list event) (name : string) :
  sems (run evs) name = sems (run (filter (concerns name) evs)) name
  ∧ (∀ st ev, ¬ concerns name ev → sems (step st ev) name = sems st name)
  ∧ (∀ st t i, parallel t = false → sems (step st (Tick t i)) = sems st).
Proof.
  split; [by apply foldl_step_projection|]. split.
  - intros st ev. apply step_other.
  - intros st t i Hp. simpl. unfold wrapper, log. by rewrite Hp.
Qed.

Lemma tasks_do_not_interfere_witness :
  sems (run [Tick sweep 0; Tick sync 0; Tick sweep 1]) "sweep"
  = sems (run [Tick sweep 0; Tick sweep 1]) "sweep".
Proof.
  destruct (tasks_do_not_interfere [Tick sweep 0; Tick sync 0; Tick sweep 1]
              "sweep") as [H _].
  exact H.
Defined.

End PeriodicTaskMore.
